(** * fix-ai-permission-controller: the line repair pass

    A shallow embedding of [backend/scripts/archive/fix-ai-permission-controller.py]
    and the properties of its scan/repair loop.

    The script reads a TypeScript controller, splits it on newlines, walks the
    lines with an index [i], remembers the name of the last
    [export async function NAME(] header it met, and rewrites every line that
    contains the broken call [handleControllerError(error, res, ',]: the line
    is replaced by a well-formed call, and the lines after it are dropped up
    to and including the first pair of consecutive lines that are a lone [}],
    for which a single ["  }"] is put back.

    Text is modelled with the Standard Library's [string]: a sequence of
    8-bit characters.  The character classes of [str.strip] and of the
    regular expression's [\w] are Python's, restricted to code points
    below 256. *)

From Stdlib Require Import String Ascii List Bool Arith Lia.
Import ListNotations.
Open Scope string_scope.
Open Scope list_scope.
Open Scope nat_scope.

Set Implicit Arguments.

(* ================================================================== *)
(** ** Python string operations used by the script *)

Module PyStr.

Definition code (c : ascii) : nat := nat_of_ascii c.

Definition between (lo hi n : nat) : bool := (lo <=? n) && (n <=? hi).

(** [str.isspace] on one character: TAB, LF, VT, FF, CR, the four
    separators FS GS RS US, the space, NEL and the no-break space. *)
Definition isspace (c : ascii) : bool :=
  let n := code c in
  between 9 13 n || between 28 32 n || (n =? 133) || (n =? 160).

(** The class [\w] of [re] on a [str] pattern: alphanumeric characters
    and the underscore.  Above 127 this is the feminine and masculine
    ordinal indicators, the micro sign, the superscript digits, the
    vulgar fractions and the Latin-1 letters. *)
Definition isword (c : ascii) : bool :=
  let n := code c in
  between 48 57 n || between 65 90 n || (n =? 95) || between 97 122 n
  || (n =? 170) || between 178 179 n || (n =? 181) || between 185 186 n
  || between 188 190 n || between 192 214 n || between 216 246 n
  || between 248 255 n.

(** [s.lstrip()] *)
Fixpoint lstrip (s : string) : string :=
  match s with
  | String c s' => if isspace c then lstrip s' else s
  | EmptyString => EmptyString
  end.

(** [s.rstrip()]: a character goes when it is white and everything
    after it went. *)
Fixpoint rstrip (s : string) : string :=
  match s with
  | String c s' =>
      match rstrip s' with
      | EmptyString => if isspace c then EmptyString else String c EmptyString
      | r => String c r
      end
  | EmptyString => EmptyString
  end.

(** [s.strip()] *)
Definition strip (s : string) : string := rstrip (lstrip s).

(** [needle in hay] *)
Fixpoint str_in (needle hay : string) : bool :=
  prefix needle hay
  || match hay with
     | String _ hay' => str_in needle hay'
     | EmptyString => false
     end.

(** [s.startswith(p)], returning what follows the prefix. *)
Fixpoint after_prefix (p s : string) : option string :=
  match p, s with
  | EmptyString, _ => Some s
  | String a p', String b s' => if Ascii.eqb a b then after_prefix p' s' else None
  | String _ _, EmptyString => None
  end.

(** The longest run of word characters at the head of a string, and
    what follows it. *)
Fixpoint span_word (s : string) : string * string :=
  match s with
  | String c s' =>
      if isword c
      then let (w, r) := span_word s' in (String c w, r)
      else (EmptyString, s)
  | EmptyString => (EmptyString, EmptyString)
  end.

Definition newline : ascii := "010"%char.

(** [content.split('\n')]: never empty; a trailing newline gives a last
    empty line. *)
Fixpoint split_lines (content : string) : list string :=
  match content with
  | EmptyString => [EmptyString]
  | String c s' =>
      if Ascii.eqb c newline then EmptyString :: split_lines s'
      else match split_lines s' with
           | l :: ls => String c l :: ls
           | [] => [String c EmptyString]
           end
  end.

(** ['\n'.join(ls)] *)
Definition join_lines (ls : list string) : string :=
  String.concat (String newline EmptyString) ls.

End PyStr.
Import PyStr.

(* ================================================================== *)
(** ** Results of a run *)

(** A run either completes, or raises Python's [IndexError] at a list
    access out of range, or exhausts the step budget of the model. *)
Inductive result (A : Type) : Type :=
| Ok (a : A)
| IndexError
| OutOfFuel.

Arguments IndexError {A}.
Arguments OutOfFuel {A}.

Definition bind {A B : Type} (r : result A) (k : A -> result B) : result B :=
  match r with
  | Ok a => k a
  | IndexError => IndexError
  | OutOfFuel => OutOfFuel
  end.

Notation "x <- r ;; k" := (bind r (fun x => k))
  (at level 61, r at next level, right associativity).
Notation "' p <- r ;; k" := (bind r (fun x => let 'p := x in k))
  (at level 61, p pattern, r at next level, right associativity).

(** [lines[k]] *)
Definition index (lines : list string) (k : nat) : result string :=
  match nth_error lines k with
  | Some l => Ok l
  | None => IndexError
  end.

(* ================================================================== *)
(** ** The script *)

(** The broken call the script looks for. *)
Definition MALFORMED : string := "handleControllerError(error, res, ',".

(** [re.match(r'^export async function (\w+)\(', line)], returning group 1.
    The group is greedy and the character after it must be an opening
    parenthesis, which is no word character: the only candidate is the
    longest run of word characters. *)
Definition func_match (line : string) : option string :=
  match after_prefix "export async function " line with
  | Some rest =>
      match span_word rest with
      | (String c w, String "("%char _) => Some (String c w)
      | _ => None
      end
  | None => None
  end.

(** [str(current_function)] inside the f-string. *)
Definition show_function (current_function : option string) : string :=
  match current_function with
  | Some name => name
  | None => "None"
  end.

(** The line put in place of a broken call. *)
Definition replacement (current_function : option string) : string :=
  ("    handleControllerError(error, res, 'AiPermissionController."
   ++ show_function current_function ++ "');")%string.

(** The line put in place of a doubled closing brace. *)
Definition CLOSING : string := "  }".

(** [l.strip() == '}'] *)
Definition lone_brace (l : string) : bool := String.eqb (strip l) "}".

(** The variables of the loop.  The notices printed on the console are
    written and never read back; they are left out. *)
Record state : Type := mkState {
  i : nat;
  current_function : option string;
  new_lines : list string
}.

Definition init : state :=
  {| i := 0; current_function := None; new_lines := [] |}.

(** The condition of the inner [if], evaluated left to right with the
    short cut of [and]. *)
Definition double_brace_at (lines : list string) (k : nat) : result bool :=
  l <- index lines k ;;
  if lone_brace l then
    if k + 1 <? length lines then
      l' <- index lines (k + 1) ;;
      Ok (lone_brace l')
    else Ok false
  else Ok false.

(** The inner [while]: from index [k], look for the doubled brace.  The
    result is the index at the [break] (on the second brace is one more)
    or at the end of the lines. *)
Fixpoint skip_malformed (fuel : nat) (lines : list string) (k : nat)
    (out : list string) : result (nat * list string) :=
  if k <? length lines then
    match fuel with
    | O => OutOfFuel
    | S fuel' =>
        found <- double_brace_at lines k ;;
        if found then Ok (k + 1, out ++ [CLOSING])
        else skip_malformed fuel' lines (k + 1) out
    end
  else Ok (k, out).

(** The header rule: a matching line overwrites the remembered name. *)
Definition enter (current : option string) (line : string) : option string :=
  match func_match line with
  | Some name => Some name
  | None => current
  end.

(** One turn of the outer [while], entered with [i < len(lines)].  The
    inner loop gets the number of lines as its fuel; it reads one line or
    more each time round and never uses it up ([loop_body_at]). *)
Definition loop_body (lines : list string) (st : state) : result state :=
  line <- index lines (i st) ;;
  let cf := enter (current_function st) line in
  if str_in MALFORMED line then
    '(k, out) <- skip_malformed (length lines) lines (i st + 1)
                   (new_lines st ++ [replacement cf]) ;;
    Ok {| i := k + 1; current_function := cf; new_lines := out |}
  else
    Ok {| i := i st + 1; current_function := cf;
          new_lines := new_lines st ++ [line] |}.

(** The outer [while]. *)
Fixpoint run (fuel : nat) (lines : list string) (st : state) : result state :=
  if i st <? length lines then
    match fuel with
    | O => OutOfFuel
    | S fuel' => st' <- loop_body lines st ;; run fuel' lines st'
    end
  else Ok st.

(** The pass over the lines of the file. *)
Definition repair_lines (lines : list string) : result (list string) :=
  st <- run (length lines) lines init ;;
  Ok (new_lines st).

(** The pass over the text of the file: split, repair, join. *)
Definition repair_content (content : string) : result string :=
  out <- repair_lines (split_lines content) ;;
  Ok (join_lines out).

(* ================================================================== *)
(** ** The scenario of the specification *)

Definition scenario_input : list string :=
  [ "export async function getItem(req, res) {";
    "  try {";
    "    doWork();";
    "  } catch (error) {";
    "    handleControllerError(error, res, ',";
    "    extraJunk";
    "  }";
    "  }";
    "}" ].

(** The seven lines the specification expects. *)
Definition scenario_expected : list string :=
  [ "export async function getItem(req, res) {";
    "  try {";
    "    doWork();";
    "  } catch (error) {";
    "    handleControllerError(error, res, 'Controller.getItem');";
    "  }";
    "}" ].

(** The seven lines the script writes. *)
Definition scenario_output : list string :=
  [ "export async function getItem(req, res) {";
    "  try {";
    "    doWork();";
    "  } catch (error) {";
    "    handleControllerError(error, res, 'AiPermissionController.getItem');";
    "  }";
    "}" ].


(* ================================================================== *)
(** ** Vocabulary of the properties *)

(** [lines[k]] where the index is known to be in range. *)
Definition line_at (lines : list string) (k : nat) : string := nth k lines "".

Definition malformed (l : string) : bool := str_in MALFORMED l.

Definition is_header (l : string) : bool :=
  match func_match l with Some _ => true | None => false end.

(** A header line declaring [name]: the fixed words, the name, an opening
    parenthesis and anything after it. *)
Definition header_of (name tail : string) : string :=
  ("export async function " ++ name ++ "(" ++ tail)%string.

(** A name made of one word character or more. *)
Fixpoint all_word (s : string) : bool :=
  match s with
  | String c s' => isword c && all_word s'
  | EmptyString => true
  end.

Definition identifier (s : string) : bool :=
  match s with
  | String _ _ => all_word s
  | EmptyString => false
  end.

(** The list starts with two lone closing braces. *)
Definition pair_head (ls : list string) : bool :=
  match ls with
  | l :: l' :: _ => lone_brace l && lone_brace l'
  | _ => false
  end.

(** The offset of the first doubled closing brace, if there is one. *)
Fixpoint find_pair (ls : list string) : option nat :=
  match ls with
  | l :: rest =>
      if pair_head ls then Some 0 else option_map S (find_pair rest)
  | [] => None
  end.

Definition no_pair (ls : list string) : Prop := find_pair ls = None.

(** The number of lone closing braces among some lines. *)
Definition count_braces (ls : list string) : nat :=
  length (filter lone_brace ls).

(** The remembered name, as the replacement line shows it, is made of
    word characters. *)
Definition wordy (cf : option string) : Prop :=
  all_word (show_function cf) = true.

(** A needle that cannot be the head of word characters followed by a
    quote: before it is used up it shows a character that is neither. *)
Fixpoint stops (needle : string) : bool :=
  match needle with
  | String a needle' =>
      negb (Ascii.eqb a "'"%char) && (negb (isword a) || stops needle')
  | EmptyString => false
  end.

Fixpoint no_newline (s : string) : bool :=
  match s with
  | String c s' => negb (Ascii.eqb c newline) && no_newline s'
  | EmptyString => true
  end.

(** White space only. *)
Fixpoint all_space (s : string) : bool :=
  match s with
  | String c s' => isspace c && all_space s'
  | EmptyString => true
  end.

(** What one turn of the outer loop does at line [l], followed by the
    lines [rest]. *)
Definition advance (st : state) (l : string) (rest : list string) : state :=
  let cf := enter (current_function st) l in
  if malformed l then
    match find_pair rest with
    | Some k =>
        {| i := i st + k + 3; current_function := cf;
           new_lines := new_lines st ++ [replacement cf; CLOSING] |}
    | None =>
        {| i := i st + length rest + 2; current_function := cf;
           new_lines := new_lines st ++ [replacement cf] |}
    end
  else
    {| i := i st + 1; current_function := cf;
       new_lines := new_lines st ++ [l] |}.

(** One turn of the outer loop, as a relation between the states at the
    head of the loop. *)
Definition turn (lines : list string) (st st' : state) : Prop :=
  i st < length lines /\ loop_body lines st = Ok st'.

(** Some turns, none included. *)
Inductive turns (lines : list string) : state -> state -> Prop :=
| turns_refl st : turns lines st st
| turns_step st st' st'' :
    turn lines st st' -> turns lines st' st'' -> turns lines st st''.

(** The states the loop passes through at its head. *)
Definition loop_head (lines : list string) (st : state) : Prop :=
  turns lines init st.

(** The two states of the repair engine in the specification. *)
Inductive mode : Type := SCANNING | REPAIRING.

(** The state machine of the specification, line by line. *)
Fixpoint scan (m : mode) (cf : option string) (ls : list string) : list string :=
  match ls with
  | l :: rest =>
      match m with
      | SCANNING =>
          let cf' := enter cf l in
          if malformed l then replacement cf' :: scan REPAIRING cf' rest
          else l :: scan SCANNING cf' rest
      | REPAIRING =>
          match rest with
          | l' :: rest' =>
              if lone_brace l && lone_brace l'
              then CLOSING :: scan SCANNING cf rest'
              else scan REPAIRING cf rest
          | [] => []
          end
      end
  | [] => []
  end.

(** The output as a rewriting of the input: a line outside the damaged
    regions is kept where it is, a region that reaches its doubled brace
    becomes two lines, a region that does not becomes one and ends the
    output. *)
Inductive rewrites : option string -> list string -> list string -> Prop :=
| rw_end cf : rewrites cf [] []
| rw_keep cf l rest out :
    malformed l = false ->
    rewrites (enter cf l) rest out ->
    rewrites cf (l :: rest) (l :: out)
| rw_fold cf t junk b b' rest out :
    malformed t = true ->
    no_pair (junk ++ [b]) ->
    lone_brace b = true -> lone_brace b' = true ->
    rewrites (enter cf t) rest out ->
    rewrites cf (t :: junk ++ b :: b' :: rest)
             (replacement (enter cf t) :: CLOSING :: out)
| rw_cut cf t rest :
    malformed t = true ->
    no_pair rest ->
    rewrites cf (t :: rest) [replacement (enter cf t)].

(** A damaged region in its file: the lines [pre], the broken call [t],
    its remnants [junk], the doubled brace [b], [b'] and the lines [post]. *)
Definition damaged (pre : list string) (t : string) (junk : list string)
    (b b' : string) (post : list string) : list string :=
  pre ++ t :: junk ++ b :: b' :: post.

(** A header that lies inside a damaged region, and a broken call after
    the region. *)
Definition swallowed_header : list string :=
  [ "    handleControllerError(error, res, ',";
    "export async function Foo(req, res) {";
    "  }";
    "  }";
    "    handleControllerError(error, res, '," ].

(** The lines that lie outside every damaged region, in their order. *)
Fixpoint outside (m : mode) (ls : list string) : list string :=
  match ls with
  | l :: rest =>
      match m with
      | SCANNING =>
          if malformed l then outside REPAIRING rest
          else l :: outside SCANNING rest
      | REPAIRING =>
          match rest with
          | l' :: rest' =>
              if lone_brace l && lone_brace l'
              then outside SCANNING rest'
              else outside REPAIRING rest
          | [] => []
          end
      end
  | [] => []
  end.

(** The number of damaged regions that reach their doubled brace. *)
Fixpoint closed_regions (m : mode) (ls : list string) : nat :=
  match ls with
  | l :: rest =>
      match m with
      | SCANNING =>
          if malformed l then closed_regions REPAIRING rest
          else closed_regions SCANNING rest
      | REPAIRING =>
          match rest with
          | l' :: rest' =>
              if lone_brace l && lone_brace l'
              then S (closed_regions SCANNING rest')
              else closed_regions REPAIRING rest
          | [] => 0
          end
      end
  | [] => 0
  end.

(** Two damaged regions in one file. *)
Definition two_regions : list string :=
  [ "handleControllerError(error, res, ',";
    "}";
    "}";
    "mid";
    "handleControllerError(error, res, ',";
    "x";
    "}";
    "}";
    "end" ].

(* ================================================================== *)
(** ** The operations on small inputs *)

Example strip_brace : strip (String "009"%char "  }  ") = "}".
Proof. reflexivity. Qed.

Example lone_brace_indented : lone_brace "      }" = true.
Proof. reflexivity. Qed.

Example lone_brace_two : lone_brace "} }" = false.
Proof. reflexivity. Qed.

Example lone_brace_semicolon : lone_brace "  };" = false.
Proof. reflexivity. Qed.

Example func_match_getItem :
  func_match "export async function getItem(req, res) {" = Some "getItem".
Proof. reflexivity. Qed.

Example func_match_indented :
  func_match "  export async function getItem(req, res) {" = None.
Proof. reflexivity. Qed.

Example func_match_space_before_parenthesis :
  func_match "export async function getItem (req, res) {" = None.
Proof. reflexivity. Qed.

Example func_match_no_name : func_match "export async function (req, res) {" = None.
Proof. reflexivity. Qed.

Example malformed_call :
  malformed "    handleControllerError(error, res, '," = true.
Proof. reflexivity. Qed.

Example malformed_repaired :
  malformed "    handleControllerError(error, res, 'AiPermissionController.getItem');"
  = false.
Proof. reflexivity. Qed.

Example split_lines_trailing :
  split_lines (String "a" (String newline (String "b" (String newline ""))))
  = ["a"; "b"; ""].
Proof. reflexivity. Qed.

Example find_pair_scenario : find_pair (skipn 5 scenario_input) = Some 1.
Proof. reflexivity. Qed.

(* ================================================================== *)
(** ** List accesses *)

Lemma index_app pre l rest : index (pre ++ l :: rest) (length pre) = Ok l.
Proof.
  unfold index. rewrite nth_error_app2 by lia.
  now rewrite Nat.sub_diag.
Qed.

Lemma index_line_at lines k : k < length lines -> index lines k = Ok (line_at lines k).
Proof.
  intros H. unfold index, line_at.
  now rewrite (nth_error_nth' lines "" H).
Qed.

Lemma split_at lines k :
  k < length lines ->
  lines = firstn k lines ++ line_at lines k :: skipn (S k) lines
  /\ length (firstn k lines) = k.
Proof.
  intros H. split.
  - unfold line_at. revert k H. induction lines as [|x xs IH]; intros [|k] H; simpl in *;
      try lia; auto.
    f_equal. apply IH. lia.
  - rewrite length_firstn. lia.
Qed.

Lemma skipn_line_at lines : forall k,
  k < length lines -> skipn k lines = line_at lines k :: skipn (S k) lines.
Proof.
  unfold line_at. induction lines as [|x xs IH]; intros [|k] H; simpl in *; try lia; auto.
  apply IH. lia.
Qed.

Lemma double_brace_at_app pre l rest :
  double_brace_at (pre ++ l :: rest) (length pre) = Ok (pair_head (l :: rest)).
Proof.
  unfold double_brace_at. rewrite index_app. simpl.
  destruct (lone_brace l); simpl.
  - destruct rest as [|l' rest'].
    + replace (length pre + 1 <? length (pre ++ [l])) with false; [reflexivity|].
      symmetry. apply Nat.ltb_ge. rewrite length_app. simpl. lia.
    + replace (length pre + 1 <? length (pre ++ l :: l' :: rest')) with true.
      * replace (pre ++ l :: l' :: rest') with ((pre ++ [l]) ++ l' :: rest')
          by (now rewrite <- app_assoc).
        replace (length pre + 1) with (length (pre ++ [l]))
          by (rewrite length_app; simpl; lia).
        now rewrite index_app.
      * symmetry. apply Nat.ltb_lt. rewrite length_app. simpl. lia.
  - now destruct rest.
Qed.

(* ================================================================== *)
(** ** The inner loop *)

Lemma skip_malformed_eq fuel lines k out :
  skip_malformed fuel lines k out =
  if k <? length lines then
    match fuel with
    | O => OutOfFuel
    | S fuel' =>
        found <- double_brace_at lines k ;;
        if found then Ok (k + 1, out ++ [CLOSING])
        else skip_malformed fuel' lines (k + 1) out
    end
  else Ok (k, out).
Proof. destruct fuel; reflexivity. Qed.

Lemma skip_malformed_app rest : forall pre out fuel,
  length rest <= fuel ->
  skip_malformed fuel (pre ++ rest) (length pre) out =
  Ok (match find_pair rest with
      | Some k => (length pre + k + 1, out ++ [CLOSING])
      | None => (length pre + length rest, out)
      end).
Proof.
  induction rest as [|l rest IH]; intros pre out fuel Hfuel; rewrite skip_malformed_eq.
  - rewrite app_nil_r, Nat.ltb_irrefl. simpl. do 2 f_equal. lia.
  - replace (length pre <? length (pre ++ l :: rest)) with true
      by (symmetry; apply Nat.ltb_lt; rewrite length_app; simpl; lia).
    destruct fuel as [|fuel]; [simpl in Hfuel; lia|].
    rewrite double_brace_at_app. cbn [bind find_pair].
    destruct (pair_head (l :: rest)).
    + do 2 f_equal. lia.
    + replace (pre ++ l :: rest) with ((pre ++ [l]) ++ rest)
        by (now rewrite <- app_assoc).
      replace (length pre + 1) with (length (pre ++ [l]))
        by (rewrite length_app; simpl; lia).
      rewrite IH by (simpl in Hfuel; lia).
      rewrite length_app. simpl.
      destruct (find_pair rest); simpl; do 2 f_equal; lia.
Qed.

(* ================================================================== *)
(** ** One turn of the outer loop *)

Lemma loop_body_app pre l rest st :
  i st = length pre ->
  loop_body (pre ++ l :: rest) st = Ok (advance st l rest).
Proof.
  intros Hi. unfold loop_body, advance, malformed. rewrite Hi, index_app. cbn [bind].
  destruct (str_in MALFORMED l); [|reflexivity].
  replace (pre ++ l :: rest) with ((pre ++ [l]) ++ rest) by (now rewrite <- app_assoc).
  replace (length pre + 1) with (length (pre ++ [l]))
    by (rewrite length_app; simpl; lia).
  rewrite skip_malformed_app by (rewrite !length_app; simpl; lia).
  rewrite length_app. simpl.
  destruct (find_pair rest); cbn [bind]; f_equal.
  - rewrite <- app_assoc. simpl. f_equal. lia.
  - f_equal. lia.
Qed.

Lemma loop_body_at lines st :
  i st < length lines ->
  loop_body lines st =
  Ok (advance st (line_at lines (i st)) (skipn (S (i st)) lines)).
Proof.
  intros H. destruct (split_at lines H) as [Hl Hn].
  rewrite Hl at 1. apply loop_body_app. now rewrite Hn.
Qed.

Lemma advance_progress st l rest : i st < i (advance st l rest).
Proof.
  unfold advance. destruct (malformed l); [destruct (find_pair rest)|]; simpl; lia.
Qed.

Lemma advance_extends st l rest :
  exists added, added <> [] /\ new_lines (advance st l rest) = new_lines st ++ added.
Proof.
  unfold advance. destruct (malformed l); [destruct (find_pair rest)|]; simpl;
    eexists; (split; [|reflexivity]); discriminate.
Qed.

Lemma advance_function st l rest :
  current_function (advance st l rest) = enter (current_function st) l.
Proof.
  unfold advance. now destruct (malformed l); [destruct (find_pair rest)|].
Qed.

Lemma turn_advance lines st st' :
  turn lines st st' <->
  i st < length lines /\
  st' = advance st (line_at lines (i st)) (skipn (S (i st)) lines).
Proof.
  unfold turn. split; intros [H E]; split; auto.
  - rewrite loop_body_at in E by assumption. now inversion E.
  - subst. now apply loop_body_at.
Qed.

Lemma turn_exists lines st :
  i st < length lines -> exists st', turn lines st st'.
Proof.
  intros H. eexists. apply turn_advance. split; [exact H|reflexivity].
Qed.

Lemma turn_deterministic lines st s1 s2 :
  turn lines st s1 -> turn lines st s2 -> s1 = s2.
Proof.
  intros [_ E1] [_ E2]. rewrite E1 in E2. now inversion E2.
Qed.

Lemma turn_progress lines st st' : turn lines st st' -> i st < i st'.
Proof.
  intros H. apply turn_advance in H as [_ ->]. apply advance_progress.
Qed.

(* ================================================================== *)
(** ** Sequences of turns *)

Lemma turns_trans lines a b c :
  turns lines a b -> turns lines b c -> turns lines a c.
Proof.
  induction 1; intros; auto. eapply turns_step; eauto.
Qed.

Lemma turns_one lines a b : turn lines a b -> turns lines a b.
Proof. intros H. eapply turns_step; [exact H|apply turns_refl]. Qed.

Lemma turns_monotone lines a b : turns lines a b -> i a <= i b.
Proof.
  induction 1 as [|st st' st'' H _ IH]; [lia|].
  apply turn_progress in H. lia.
Qed.

Lemma turns_same_index lines a b : turns lines a b -> i a = i b -> a = b.
Proof.
  intros H E. destruct H as [|st st' st'' H1 H2]; [reflexivity|].
  apply turn_progress in H1. apply turns_monotone in H2. lia.
Qed.

Lemma turns_extends lines a b :
  turns lines a b -> exists added, new_lines b = new_lines a ++ added.
Proof.
  induction 1 as [st|st st' st'' H _ [added IH]].
  - exists []. now rewrite app_nil_r.
  - apply turn_advance in H as [_ ->].
    destruct (advance_extends st (line_at lines (i st)) (skipn (S (i st)) lines))
      as (added' & _ & E).
    exists (added' ++ added). now rewrite IH, E, app_assoc.
Qed.

(** Two states met from the same start are met one after the other. *)
Lemma turns_linear lines a s1 s2 :
  turns lines a s1 -> turns lines a s2 -> i s1 <= i s2 -> turns lines s1 s2.
Proof.
  induction 1 as [st|st st' st'' H H1 IH]; intros H2 Hle; [exact H2|].
  destruct H2 as [|st s' s2 H' H2].
  - apply turn_progress in H. apply turns_monotone in H1. lia.
  - rewrite (turn_deterministic H H') in *. now apply IH.
Qed.

(** From any state the loop comes to its end. *)
Lemma turns_finish lines : forall n st,
  length lines - i st <= n ->
  exists sf, turns lines st sf /\ length lines <= i sf.
Proof.
  induction n as [|n IH]; intros st Hn.
  - exists st. split; [apply turns_refl|lia].
  - destruct (Nat.lt_ge_cases (i st) (length lines)) as [Hlt|Hge].
    + destruct (turn_exists lines st Hlt) as [st' Ht].
      pose proof (turn_progress Ht) as Hp.
      destruct (IH st') as (sf & Hsf & Hend); [lia|].
      exists sf. split; [eapply turns_step; eauto|exact Hend].
    + exists st. split; [apply turns_refl|exact Hge].
Qed.

Lemma run_eq fuel lines st :
  run fuel lines st =
  if i st <? length lines then
    match fuel with
    | O => OutOfFuel
    | S fuel' => st' <- loop_body lines st ;; run fuel' lines st'
    end
  else Ok st.
Proof. destruct fuel; reflexivity. Qed.

(** With fuel for the lines that are left, [run] returns the state at
    which the turns end. *)
Lemma run_turns lines st sf :
  turns lines st sf -> length lines <= i sf ->
  forall fuel, length lines <= i st + fuel -> run fuel lines st = Ok sf.
Proof.
  induction 1 as [st|st st' st'' H H1 IH]; intros Hend fuel Hfuel; rewrite run_eq.
  - now replace (i st <? length lines) with false by (symmetry; apply Nat.ltb_ge; lia).
  - pose proof (turn_progress H) as Hp. destruct H as [Hlt E].
    replace (i st <? length lines) with true by (symmetry; now apply Nat.ltb_lt).
    destruct fuel as [|fuel]; [lia|].
    rewrite E. cbn [bind]. apply IH; [exact Hend|lia].
Qed.

Lemma repair_lines_final lines sf :
  loop_head lines sf -> length lines <= i sf ->
  repair_lines lines = Ok (new_lines sf).
Proof.
  intros H Hend. unfold repair_lines.
  rewrite (run_turns H Hend); [reflexivity|simpl; lia].
Qed.

(** The output so far stays at the head of the final output. *)
Lemma repair_lines_extends lines st :
  loop_head lines st ->
  exists tail, repair_lines lines = Ok (new_lines st ++ tail).
Proof.
  intros H.
  destruct (@turns_finish lines _ st (le_n _)) as (sf & Hsf & Hend).
  destruct (turns_extends Hsf) as [tail E].
  exists tail. rewrite <- E. apply repair_lines_final; [|exact Hend].
  eapply turns_trans; eauto.
Qed.

(* ================================================================== *)
(** ** The doubled brace *)

Lemma pair_head_app l junk b b' rest :
  pair_head (l :: junk ++ b :: b' :: rest) = pair_head (l :: junk ++ [b]).
Proof. now destruct junk. Qed.

Lemma no_pair_cons l ls :
  no_pair (l :: ls) <-> pair_head (l :: ls) = false /\ no_pair ls.
Proof.
  unfold no_pair. cbn [find_pair].
  destruct (pair_head (l :: ls)); [split; [discriminate|intros [? _]; discriminate]|].
  destruct (find_pair ls); simpl; split; try intros [_ ?]; try discriminate; auto.
Qed.

Lemma find_pair_first junk b b' rest :
  no_pair (junk ++ [b]) -> lone_brace b = true -> lone_brace b' = true ->
  find_pair (junk ++ b :: b' :: rest) = Some (length junk).
Proof.
  intros Hno Hb Hb'. induction junk as [|l junk IH]; simpl app.
  - cbn. now rewrite Hb, Hb'.
  - simpl app in Hno. apply no_pair_cons in Hno as [Hh Hno].
    cbn [find_pair]. rewrite pair_head_app, Hh, (IH Hno). reflexivity.
Qed.

Lemma find_pair_split ls : forall k,
  find_pair ls = Some k ->
  exists junk b b' rest,
    ls = junk ++ b :: b' :: rest /\ length junk = k /\
    lone_brace b = true /\ lone_brace b' = true /\ no_pair (junk ++ [b]).
Proof.
  induction ls as [|l ls IH]; intros k H; [discriminate|].
  cbn [find_pair] in H. destruct (pair_head (l :: ls)) eqn:Hh.
  - inversion H; subst. destruct ls as [|l' rest]; [discriminate|].
    simpl in Hh. apply andb_true_iff in Hh as [Hl Hl'].
    exists [], l, l', rest. repeat split; auto.
  - destruct (find_pair ls) as [k'|] eqn:Hf; [|discriminate].
    inversion H; subst.
    destruct (IH k' eq_refl) as (junk & b & b' & rest & E & Hlen & Hb & Hb' & Hno).
    exists (l :: junk), b, b', rest. subst ls. repeat split; simpl; auto.
    apply no_pair_cons. split; [|exact Hno].
    now rewrite <- (pair_head_app l junk b b' rest).
Qed.

Lemma find_pair_bound ls k : find_pair ls = Some k -> k + 2 <= length ls.
Proof.
  intros H. destruct (find_pair_split ls H) as (junk & b & b' & rest & -> & <- & _).
  rewrite length_app. simpl. lia.
Qed.

Lemma skipn_pair junk (b b' : string) rest :
  skipn (length junk + 2) (junk ++ b :: b' :: rest) = rest.
Proof.
  replace (junk ++ b :: b' :: rest) with ((junk ++ [b; b']) ++ rest)
    by (now rewrite <- app_assoc).
  replace (length junk + 2) with (length (junk ++ [b; b']))
    by (rewrite length_app; reflexivity).
  now rewrite skipn_app, skipn_all, Nat.sub_diag.
Qed.

(* ================================================================== *)
(** ** The script and the state machine of the specification *)

Lemma scan_repairing cf ls :
  scan REPAIRING cf ls =
  match find_pair ls with
  | Some k => CLOSING :: scan SCANNING cf (skipn (k + 2) ls)
  | None => []
  end.
Proof.
  induction ls as [|l ls IH]; [reflexivity|].
  cbn [scan find_pair]. destruct ls as [|l' rest]; [reflexivity|].
  cbn [pair_head]. destruct (lone_brace l && lone_brace l'); [reflexivity|].
  rewrite IH. destruct (find_pair (l' :: rest)); reflexivity.
Qed.

Lemma scan_advance st l rest :
  new_lines st ++ scan SCANNING (current_function st) (l :: rest) =
  new_lines (advance st l rest)
  ++ scan SCANNING (current_function (advance st l rest))
       (skipn (i (advance st l rest) - S (i st)) rest).
Proof.
  cbn [scan]. unfold advance. destruct (malformed l).
  - rewrite scan_repairing. destruct (find_pair rest) as [k|]; cbn [i new_lines current_function].
    + replace (i st + k + 3 - S (i st)) with (k + 2) by lia.
      now rewrite <- app_assoc.
    + replace (i st + length rest + 2 - S (i st)) with (S (length rest)) by lia.
      rewrite skipn_all2 by lia. simpl. now rewrite app_nil_r.
  - cbn [i new_lines current_function].
    replace (i st + 1 - S (i st)) with 0 by lia. now rewrite <- app_assoc.
Qed.

(** Along the turns, the output still to come is the state machine's on
    the lines still to be read. *)
Lemma turns_scan lines a b :
  turns lines a b ->
  new_lines a ++ scan SCANNING (current_function a) (skipn (i a) lines) =
  new_lines b ++ scan SCANNING (current_function b) (skipn (i b) lines).
Proof.
  induction 1 as [st|st st' st'' H _ IH]; [reflexivity|].
  rewrite <- IH. apply turn_advance in H as [Hlt ->].
  rewrite (skipn_line_at lines Hlt), scan_advance. do 2 f_equal.
  rewrite skipn_skipn. f_equal.
  pose proof (advance_progress st (line_at lines (i st)) (skipn (S (i st)) lines)). lia.
Qed.

(** The script computes the state machine of the specification. *)
Lemma repair_lines_scan lines :
  repair_lines lines = Ok (scan SCANNING None lines).
Proof.
  destruct (@turns_finish lines _ init (le_n _)) as (sf & Hsf & Hend).
  rewrite (repair_lines_final Hsf Hend). f_equal.
  pose proof (turns_scan Hsf) as E. simpl in E. rewrite E.
  rewrite skipn_all2 by exact Hend. simpl. now rewrite app_nil_r.
Qed.

(* ================================================================== *)
(** ** Strings *)

Lemma span_word_word s : all_word (fst (span_word s)) = true.
Proof.
  induction s as [|c s IH]; [reflexivity|].
  simpl. destruct (isword c) eqn:Hc; [|reflexivity].
  destruct (span_word s) as [w r]. simpl in *. now rewrite Hc.
Qed.

Lemma span_word_app w : forall tail,
  all_word w = true ->
  span_word (w ++ String "("%char tail) = (w, String "("%char tail).
Proof.
  induction w as [|c w IH]; intros tail H; simpl in *.
  - reflexivity.
  - apply andb_true_iff in H as [Hc Hw]. now rewrite Hc, (IH tail Hw).
Qed.

Lemma func_match_word line name : func_match line = Some name -> all_word name = true.
Proof.
  unfold func_match. destruct (after_prefix _ line) as [rest|]; [|discriminate].
  pose proof (span_word_word rest) as H.
  destruct (span_word rest) as [[|c w] [|[[] [] [] [] [] [] [] []] r]]; try discriminate.
  intros E. inversion E; subst. exact H.
Qed.

Lemma func_match_header name tail :
  identifier name = true -> func_match (header_of name tail) = Some name.
Proof.
  intros H. unfold func_match, header_of.
  change (after_prefix "export async function "
            ("export async function " ++ name ++ "(" ++ tail)%string)
    with (Some (name ++ "(" ++ tail)%string).
  destruct name as [|c w]; [discriminate|].
  change ("(" ++ tail)%string with (String "("%char tail).
  now rewrite (span_word_app _ tail H).
Qed.

Lemma wordy_enter cf l : wordy cf -> wordy (enter cf l).
Proof.
  unfold wordy, enter. destruct (func_match l) eqn:E; [|auto].
  intros _. simpl. eapply func_match_word; eauto.
Qed.

Lemma wordy_None : wordy None.
Proof. reflexivity. Qed.

Lemma prefix_stops w : forall needle,
  stops needle = true -> all_word w = true ->
  prefix needle (w ++ "');") = false.
Proof.
  induction w as [|b w IH]; intros [|a needle] Hs Hw; try discriminate; simpl in *.
  - destruct (ascii_dec a "'"%char) as [->|]; [discriminate|reflexivity].
  - destruct (ascii_dec a b) as [->|]; [|reflexivity].
    apply andb_true_iff in Hw as [Hb Hw]. rewrite Hb in Hs. simpl in Hs.
    apply andb_true_iff in Hs as [_ Hs]. now apply IH.
Qed.

Lemma str_in_word w :
  all_word w = true -> str_in MALFORMED (w ++ "');") = false.
Proof.
  induction w as [|b w IH]; intros Hw; [reflexivity|].
  change (str_in MALFORMED (String b w ++ "');"))
    with (prefix MALFORMED (String b w ++ "');") || str_in MALFORMED (w ++ "');")).
  rewrite (prefix_stops (String b w) MALFORMED eq_refl Hw).
  simpl in Hw. apply andb_true_iff in Hw as [_ Hw]. now rewrite IH.
Qed.

(** The line the script writes is not one it would rewrite. *)
Lemma malformed_replacement cf : wordy cf -> malformed (replacement cf) = false.
Proof.
  intros H. unfold malformed, replacement.
  change (str_in MALFORMED (show_function cf ++ "');") = false).
  now apply str_in_word.
Qed.

Lemma malformed_closing : malformed CLOSING = false.
Proof. reflexivity. Qed.

Lemma no_newline_app a b :
  no_newline (a ++ b) = no_newline a && no_newline b.
Proof.
  induction a as [|c a IH]; simpl; [reflexivity|].
  now rewrite IH, andb_assoc.
Qed.

Lemma word_no_newline w : all_word w = true -> no_newline w = true.
Proof.
  induction w as [|c w IH]; simpl; [reflexivity|].
  intros H. apply andb_true_iff in H as [Hc Hw]. rewrite (IH Hw), andb_true_r.
  destruct (Ascii.eqb_spec c newline) as [->|]; [discriminate|reflexivity].
Qed.

Lemma no_newline_replacement cf : wordy cf -> no_newline (replacement cf) = true.
Proof.
  intros H. unfold replacement. rewrite !no_newline_app, (word_no_newline _ H).
  reflexivity.
Qed.

Lemma split_lines_nonempty content : split_lines content <> [].
Proof.
  destruct content as [|c s]; simpl; [discriminate|].
  destruct (Ascii.eqb c newline); [discriminate|].
  destruct (split_lines s); discriminate.
Qed.

Lemma split_lines_no_newline content :
  Forall (fun l => no_newline l = true) (split_lines content).
Proof.
  induction content as [|c s IH]; simpl.
  - repeat constructor.
  - destruct (Ascii.eqb c newline) eqn:Hc.
    + constructor; [reflexivity|exact IH].
    + destruct (split_lines s) as [|l ls].
      * repeat constructor. simpl. now rewrite Hc.
      * inversion IH; subst. constructor; [|assumption]. simpl. now rewrite Hc.
Qed.

Lemma split_lines_app l : forall s,
  no_newline l = true ->
  split_lines (l ++ s) =
  match split_lines s with
  | x :: xs => (l ++ x)%string :: xs
  | [] => [l]
  end.
Proof.
  induction l as [|c l IH]; intros s H; simpl in *.
  - destruct (split_lines s) eqn:E; [|reflexivity].
    now destruct (split_lines_nonempty s).
  - apply andb_true_iff in H as [Hc Hl]. apply negb_true_iff in Hc. rewrite Hc.
    rewrite (IH s Hl). destruct (split_lines s); [|reflexivity].
    destruct l; reflexivity.
Qed.

Lemma append_empty s : (s ++ "")%string = s.
Proof. induction s; simpl; congruence. Qed.

(** Splitting what was joined gives the lines back. *)
Lemma split_join ls :
  ls <> [] -> Forall (fun l => no_newline l = true) ls ->
  split_lines (join_lines ls) = ls.
Proof.
  unfold join_lines. induction ls as [|l ls IH]; intros Hne H; [congruence|].
  inversion H as [|? ? Hl Hls]; subst.
  destruct ls as [|l' ls].
  - simpl. rewrite <- (append_empty l) at 1.
    rewrite (split_lines_app _ "" Hl). simpl. now rewrite append_empty.
  - change (String.concat (String newline "") (l :: l' :: ls))
      with (l ++ String newline (String.concat (String newline "") (l' :: ls)))%string.
    rewrite (split_lines_app _ _ Hl).
    change (split_lines (String newline (String.concat (String newline "") (l' :: ls))))
      with ("" :: split_lines (String.concat (String newline "") (l' :: ls))).
    cbv beta iota.
    rewrite append_empty, IH; [reflexivity|discriminate|assumption].
Qed.

(* ================================================================== *)
(** ** The output of the state machine *)

(** What holds of the lines that are kept, of the replacement lines and
    of the closing line holds of the whole output. *)
Lemma scan_Forall (P : string -> Prop) :
  (forall cf, wordy cf -> P (replacement cf)) -> P CLOSING ->
  forall n ls, length ls <= n ->
  (forall l, In l ls -> malformed l = false -> P l) ->
  forall m cf, wordy cf -> Forall P (scan m cf ls).
Proof.
  intros Hr Hc. induction n as [|n IH]; intros ls Hn Hk m cf Hcf.
  - destruct ls; [destruct m; constructor|simpl in Hn; lia].
  - destruct ls as [|l rest]; [destruct m; constructor|].
    simpl in Hn. destruct m; cbn [scan].
    + pose proof (wordy_enter l Hcf) as Hcf'.
      destruct (malformed l) eqn:Hl.
      * constructor; [now apply Hr|].
        apply IH; [lia| |exact Hcf']. intros; apply Hk; simpl; auto.
      * constructor; [apply Hk; simpl; auto|].
        apply IH; [lia| |exact Hcf']. intros; apply Hk; simpl; auto.
    + destruct rest as [|l' rest']; [constructor|].
      destruct (lone_brace l && lone_brace l').
      * constructor; [exact Hc|].
        apply IH; [simpl in Hn; lia| |exact Hcf]. intros; apply Hk; simpl; auto.
      * apply IH; [lia| |exact Hcf]. intros; apply Hk; simpl; auto.
Qed.

Lemma scan_not_malformed m cf ls :
  wordy cf -> Forall (fun l => malformed l = false) (scan m cf ls).
Proof.
  intros H.
  apply scan_Forall with (n := length ls);
    [apply malformed_replacement|apply malformed_closing|lia|auto|exact H].
Qed.

Lemma scan_no_newline m cf ls :
  wordy cf -> Forall (fun l => no_newline l = true) ls ->
  Forall (fun l => no_newline l = true) (scan m cf ls).
Proof.
  intros H Hls. rewrite Forall_forall in Hls.
  apply scan_Forall with (n := length ls);
    [apply no_newline_replacement|reflexivity|lia|auto|exact H].
Qed.

(** Lines without the broken call pass through. *)
Lemma scan_keep pre : forall cf rest,
  Forall (fun l => malformed l = false) pre ->
  scan SCANNING cf (pre ++ rest) =
  pre ++ scan SCANNING (fold_left enter pre cf) rest.
Proof.
  induction pre as [|l pre IH]; intros cf rest H; [reflexivity|].
  inversion H as [|? ? Hl Hpre]; subst.
  simpl app. cbn [scan fold_left]. rewrite Hl. f_equal. now apply IH.
Qed.

Lemma scan_clean ls cf :
  Forall (fun l => malformed l = false) ls -> scan SCANNING cf ls = ls.
Proof.
  intros H. rewrite <- (app_nil_r ls) at 1.
  rewrite (scan_keep cf [] H). simpl. now rewrite app_nil_r.
Qed.

Lemma scan_nonempty cf ls : ls <> [] -> scan SCANNING cf ls <> [].
Proof.
  destruct ls as [|l rest]; [congruence|]. intros _. cbn [scan].
  destruct (malformed l); discriminate.
Qed.

(** The state machine's output is a rewriting of its input. *)
Lemma scan_rewrites : forall n ls cf,
  length ls <= n -> rewrites cf ls (scan SCANNING cf ls).
Proof.
  induction n as [|n IH]; intros ls cf Hn.
  - destruct ls; [constructor|simpl in Hn; lia].
  - destruct ls as [|l rest]; [constructor|]. simpl in Hn. cbn [scan].
    destruct (malformed l) eqn:Hl.
    + rewrite scan_repairing. destruct (find_pair rest) as [k|] eqn:Hf.
      * destruct (find_pair_split rest Hf)
          as (junk & b & b' & post & -> & <- & Hb & Hb' & Hno).
        rewrite skipn_pair. apply rw_fold; auto.
        apply IH. rewrite length_app in Hn. simpl in Hn. lia.
      * now apply rw_cut.
    + apply rw_keep; [exact Hl|]. apply IH. lia.
Qed.

(* ================================================================== *)
(** ** States at the head of the loop *)

Lemma loop_body_in_range lines st st' :
  loop_body lines st = Ok st' -> i st < length lines.
Proof.
  unfold loop_body, index. intros H.
  destruct (nth_error lines (i st)) eqn:E; [|discriminate].
  apply nth_error_Some. congruence.
Qed.

Lemma loop_body_turn lines st st' :
  loop_body lines st = Ok st' -> turn lines st st'.
Proof. intros H. split; [eapply loop_body_in_range; eauto|exact H]. Qed.

(** The index tells the state. *)
Lemma loop_head_unique lines s1 s2 :
  loop_head lines s1 -> loop_head lines s2 -> i s1 = i s2 -> s1 = s2.
Proof.
  intros H1 H2 E. apply (@turns_same_index lines); [|exact E].
  apply (turns_linear H1 H2). lia.
Qed.

(** Of two turns, the one that starts first ends before the other starts. *)
Lemma turns_apart lines s1 s1' s2 :
  loop_head lines s1 -> loop_head lines s2 ->
  turn lines s1 s1' -> i s1 < i s2 -> turns lines s1' s2.
Proof.
  intros H1 H2 Ht Hlt.
  assert (H : turns lines s1 s2) by (apply (turns_linear H1 H2); lia).
  destruct H as [|st st' st'' H H'].
  - lia.
  - now rewrite (turn_deterministic Ht H).
Qed.

Lemma skipn_app_length (pre rest : list string) :
  skipn (length pre) (pre ++ rest) = rest.
Proof. now rewrite skipn_app, skipn_all, Nat.sub_diag. Qed.

Lemma line_at_app pre l rest : line_at (pre ++ l :: rest) (length pre) = l.
Proof. unfold line_at. now rewrite app_nth2, Nat.sub_diag by lia. Qed.

Lemma line_at_shift pre (l : string) rest k :
  line_at (pre ++ l :: rest) (length pre + 1 + k) = line_at rest k.
Proof.
  unfold line_at. rewrite app_nth2 by lia.
  now replace (length pre + 1 + k - length pre) with (S k) by lia.
Qed.

(** The output of the script, seen from a state at the head of the loop. *)
Lemma repair_lines_from lines st :
  loop_head lines st ->
  repair_lines lines =
  Ok (new_lines st ++ scan SCANNING (current_function st) (skipn (i st) lines)).
Proof.
  intros H. rewrite repair_lines_scan. f_equal. exact (turns_scan H).
Qed.

(** Lines without the broken call are read one per turn. *)
Lemma turns_keep mid : forall pre rest st,
  i st = length pre ->
  Forall (fun l => malformed l = false) mid ->
  turns (pre ++ mid ++ rest) st
        {| i := length pre + length mid;
           current_function := fold_left enter mid (current_function st);
           new_lines := new_lines st ++ mid |}.
Proof.
  induction mid as [|l mid IH]; intros pre rest st Hi H.
  - simpl. rewrite Nat.add_0_r, app_nil_r, <- Hi. destruct st; apply turns_refl.
  - inversion H as [|? ? Hl Hmid]; subst.
    eapply turns_step.
    + simpl app. apply loop_body_turn. now apply loop_body_app.
    + unfold advance. rewrite Hl.
      replace (pre ++ (l :: mid) ++ rest) with ((pre ++ [l]) ++ mid ++ rest)
        by (now rewrite <- app_assoc).
      replace (length pre + length (l :: mid)) with (length (pre ++ [l]) + length mid)
        by (rewrite length_app; simpl; lia).
      replace (new_lines st ++ l :: mid) with ((new_lines st ++ [l]) ++ mid)
        by (now rewrite <- app_assoc).
      apply (IH (pre ++ [l]) rest
               {| i := i st + 1; current_function := enter (current_function st) l;
                  new_lines := new_lines st ++ [l] |}); [|exact Hmid].
      simpl. rewrite length_app. simpl. lia.
Qed.

Lemma loop_head_keep pre rest :
  Forall (fun l => malformed l = false) pre ->
  loop_head (pre ++ rest)
        {| i := length pre; current_function := fold_left enter pre None;
           new_lines := pre |}.
Proof.
  intros H. exact (@turns_keep pre [] rest init eq_refl H).
Qed.

(** Between two headers the remembered name stays. *)
Lemma turns_function lines a b :
  turns lines a b ->
  (forall k, i a <= k < i b -> is_header (line_at lines k) = false) ->
  current_function b = current_function a.
Proof.
  induction 1 as [st|st st' st'' H H' IH]; intros Hk; [reflexivity|].
  pose proof (turn_progress H) as Hp. pose proof (turns_monotone H') as Hm.
  rewrite IH by (intros; apply Hk; lia).
  apply turn_advance in H as [_ ->]. rewrite advance_function.
  specialize (Hk (i st) ltac:(lia)). unfold is_header, enter in *.
  now destruct (func_match (line_at lines (i st))).
Qed.

Lemma fold_enter_no_header ls : forall cf,
  Forall (fun l => is_header l = false) ls -> fold_left enter ls cf = cf.
Proof.
  induction ls as [|l ls IH]; intros cf H; [reflexivity|].
  inversion H as [|? ? Hl Hls]; subst. simpl. rewrite (IH _ Hls).
  unfold enter, is_header in *. now destruct (func_match l).
Qed.

Lemma lone_brace_replacement cf : lone_brace (replacement cf) = false.
Proof.
  unfold lone_brace, strip, replacement.
  set (tail := (show_function cf ++ "');")%string). simpl.
  match goal with |- context [rstrip ?s] => destruct (rstrip s) end; reflexivity.
Qed.

Lemma count_braces_app a b : count_braces (a ++ b) = count_braces a + count_braces b.
Proof. unfold count_braces. now rewrite filter_app, length_app. Qed.

(* ================================================================== *)
(** ** The scenario *)

(** C1, as the specification has it, does not hold: on the nine lines of
    the scenario the script does not write the seven lines expected there.
    The message of the replacement line carries the controller's full
    name. *)
Lemma scenario_not_as_expected :
  repair_lines scenario_input <> Ok scenario_expected.
Proof. vm_compute. intros H. discriminate H. Qed.

(** C1, amended: on the nine lines of the scenario the script writes
    seven lines, those of the specification but for the replacement line,
    whose message is ['AiPermissionController.getItem']; the text of the
    file is rewritten accordingly. *)
Theorem scenario_repaired :
  repair_lines scenario_input = Ok scenario_output
  /\ length scenario_input = 9 /\ length scenario_output = 7
  /\ line_at scenario_output 4 = replacement (Some "getItem")
  /\ replacement (Some "getItem")
     = "    handleControllerError(error, res, 'AiPermissionController.getItem');"
  /\ repair_content (join_lines scenario_input) = Ok (join_lines scenario_output).
Proof. repeat split; vm_compute; reflexivity. Qed.

(* ================================================================== *)
(** ** The lines before a state at the head of the loop *)

Lemma find_pair_restrict rest : forall more k,
  find_pair (rest ++ more) = Some k -> k + 2 <= length rest ->
  find_pair rest = Some k.
Proof.
  induction rest as [|l rest IH]; intros more k H Hk; [simpl in Hk; lia|].
  simpl app in H. cbn [find_pair] in *. cbn [length] in Hk.
  assert (Hh : pair_head (l :: rest ++ more) = pair_head (l :: rest)).
  { destruct rest as [|l' rest']; [simpl in Hk; lia|reflexivity]. }
  rewrite Hh in H. destruct (pair_head (l :: rest)); [exact H|].
  destruct (find_pair (rest ++ more)) as [k'|] eqn:Hf; [|discriminate].
  inversion H; subst k. rewrite (IH more k' Hf); [reflexivity|lia].
Qed.

(** A turn that stays within some first lines is a turn on these lines
    alone. *)
Lemma turn_restrict a more s s' :
  turn (a ++ more) s s' -> i s' <= length a -> turn a s s'.
Proof.
  intros Ht Hle. pose proof (turn_progress Ht) as Hp.
  apply turn_advance in Ht as [_ E]. apply turn_advance. split; [lia|].
  unfold line_at in *. rewrite app_nth1 in E by lia.
  rewrite skipn_app in E. replace (S (i s) - length a) with 0 in E by lia.
  change (skipn 0 more) with more in E. subst s'. unfold advance in *.
  destruct (malformed (nth (i s) a "")); [|reflexivity].
  destruct (find_pair (skipn (S (i s)) a ++ more)) as [k|] eqn:Hf; cbn [i] in Hle.
  - rewrite (@find_pair_restrict _ more k Hf); [reflexivity|].
    rewrite length_skipn. lia.
  - rewrite length_app, length_skipn in Hle. lia.
Qed.

Lemma turns_restrict a more s sf :
  turns (a ++ more) s sf -> i sf <= length a -> turns a s sf.
Proof.
  induction 1 as [|s s' sf Ht H IH]; intros Hle; [apply turns_refl|].
  pose proof (turns_monotone H).
  eapply turns_step; [apply (@turn_restrict a more); [exact Ht|lia]|now apply IH].
Qed.

(** What was written when the index stands on a line is the output of
    the pass on the lines before it. *)
Lemma loop_head_prefix pre rest st :
  loop_head (pre ++ rest) st -> i st = length pre ->
  repair_lines pre = Ok (new_lines st).
Proof.
  intros H Hi. apply repair_lines_final; [|lia].
  apply (@turns_restrict pre rest); [exact H|lia].
Qed.

Lemma outside_repairing ls :
  outside REPAIRING ls =
  match find_pair ls with
  | Some k => outside SCANNING (skipn (k + 2) ls)
  | None => []
  end.
Proof.
  induction ls as [|l ls IH]; [reflexivity|].
  cbn [outside find_pair]. destruct ls as [|l' rest]; [reflexivity|].
  cbn [pair_head]. destruct (lone_brace l && lone_brace l'); [reflexivity|].
  rewrite IH. destruct (find_pair (l' :: rest)); reflexivity.
Qed.

Lemma closed_regions_repairing ls :
  closed_regions REPAIRING ls =
  match find_pair ls with
  | Some k => S (closed_regions SCANNING (skipn (k + 2) ls))
  | None => 0
  end.
Proof.
  induction ls as [|l ls IH]; [reflexivity|].
  cbn [closed_regions find_pair]. destruct ls as [|l' rest]; [reflexivity|].
  cbn [pair_head]. destruct (lone_brace l && lone_brace l'); [reflexivity|].
  rewrite IH. destruct (find_pair (l' :: rest)); reflexivity.
Qed.

(** The lone braces of the output are those of the lines outside the
    regions, and one for each region that reaches its doubled brace. *)
Lemma scan_count : forall n ls cf,
  length ls <= n ->
  count_braces (scan SCANNING cf ls) =
  count_braces (outside SCANNING ls) + closed_regions SCANNING ls.
Proof.
  unfold count_braces.
  induction n as [|n IH]; intros ls cf Hn.
  - destruct ls; [reflexivity|simpl in Hn; lia].
  - destruct ls as [|l rest]; [reflexivity|]. cbn [length] in Hn.
    cbn [scan outside closed_regions]. destruct (malformed l).
    + rewrite scan_repairing, outside_repairing, closed_regions_repairing.
      destruct (find_pair rest) as [k|] eqn:Hf.
      * destruct (find_pair_split rest Hf)
          as (junk & b & b' & post & -> & <- & _).
        rewrite skipn_pair. rewrite length_app in Hn. cbn [length] in Hn.
        cbn [filter]. rewrite lone_brace_replacement.
        change (lone_brace CLOSING) with true. cbn [length].
        rewrite (IH post (enter cf l)) by lia. lia.
      * cbn [filter]. rewrite lone_brace_replacement. reflexivity.
    + cbn [filter]. destruct (lone_brace l); cbn [length];
        rewrite (IH rest (enter cf l)) by lia; lia.
Qed.

(* ================================================================== *)
(** ** Brace folding *)

Lemma damaged_turn pre t junk b b' post st :
  i st = length pre -> malformed t = true ->
  no_pair (junk ++ [b]) -> lone_brace b = true -> lone_brace b' = true ->
  loop_body (damaged pre t junk b b' post) st =
  Ok {| i := length pre + length junk + 3;
        current_function := enter (current_function st) t;
        new_lines := new_lines st
                     ++ [replacement (enter (current_function st) t); CLOSING] |}.
Proof.
  intros Hi Ht Hno Hb Hb'. unfold damaged.
  rewrite (@loop_body_app pre t _ st Hi). unfold advance.
  now rewrite Ht, (@find_pair_first junk b b' post Hno Hb Hb'), Hi.
Qed.

Lemma damaged_rest pre t junk b b' post :
  skipn (length pre + length junk + 3) (damaged pre t junk b b' post) = post.
Proof.
  unfold damaged.
  replace (length pre + length junk + 3) with (S (length junk + 2) + length pre) by lia.
  rewrite <- skipn_skipn, skipn_app_length. simpl. apply skipn_pair.
Qed.

Lemma damaged_output pre t junk b b' post st :
  loop_head (damaged pre t junk b b' post) st ->
  i st = length pre -> malformed t = true ->
  no_pair (junk ++ [b]) -> lone_brace b = true -> lone_brace b' = true ->
  repair_lines (damaged pre t junk b b' post) =
  Ok (new_lines st
      ++ replacement (enter (current_function st) t) :: CLOSING
         :: scan SCANNING (enter (current_function st) t) post).
Proof.
  intros Hh Hi Ht Hno Hb Hb'. rewrite (repair_lines_from Hh). f_equal. f_equal.
  unfold damaged. rewrite Hi, skipn_app_length. cbn [scan]. rewrite Ht. f_equal.
  now rewrite scan_repairing, (@find_pair_first junk b b' post Hno Hb Hb'), skipn_pair.
Qed.

(** C2, as the specification has it, does not hold: in a file with two
    damaged regions the first broken call is read at the head of the loop
    and its doubled brace is folded, and the lines outside that region do
    not keep their count of lone closing braces: the six lines after the
    region have two, the lines written for them have one, for the second
    region is folded in its turn. *)
Lemma brace_count_changes_outside_region :
  two_regions
  = damaged [] "handleControllerError(error, res, '," [] "}" "}"
      (skipn 3 two_regions)
  /\ loop_head two_regions init
  /\ malformed (line_at two_regions 0) = true
  /\ no_pair ([] ++ ["}"])
  /\ lone_brace "}" = true
  /\ repair_lines two_regions
     = Ok (replacement None :: CLOSING
           :: ["mid"; replacement None; CLOSING; "end"])
  /\ count_braces (skipn 3 two_regions) = 2
  /\ count_braces ["mid"; replacement None; CLOSING; "end"] = 1.
Proof.
  repeat split; try (vm_compute; reflexivity). apply turns_refl.
Qed.

(** C2, amended: when a broken call is read at the head of the loop and
    [b], [b'] is the first doubled lone brace after it, the turn writes the
    replacement line and one closing line in place of the region, and
    leaves the index on the line after [b'], so that the second brace is
    never written.  The output is the output of the pass on the lines
    before the region, the two lines, and the lines after the region
    rewritten region by region: every line outside every damaged region is
    written as it is, so that the lone closing braces of these lines are
    counted as before, and each further region that reaches its doubled
    brace counts one.  With no other broken call in the file the output is
    the file with the region replaced by the two lines. *)
Theorem brace_folding pre t junk b b' post st :
  loop_head (damaged pre t junk b b' post) st ->
  i st = length pre ->
  malformed t = true ->
  no_pair (junk ++ [b]) -> lone_brace b = true -> lone_brace b' = true ->
  loop_body (damaged pre t junk b b' post) st =
    Ok {| i := length pre + length junk + 3;
          current_function := enter (current_function st) t;
          new_lines := new_lines st
                       ++ [replacement (enter (current_function st) t); CLOSING] |}
  /\ skipn (length pre + length junk + 3) (damaged pre t junk b b' post) = post
  /\ (exists tail,
        repair_lines (damaged pre t junk b b' post) =
          Ok (new_lines st
              ++ replacement (enter (current_function st) t) :: CLOSING :: tail)
        /\ (Forall (fun l => malformed l = false) post -> tail = post))
  /\ (Forall (fun l => malformed l = false) pre ->
      Forall (fun l => malformed l = false) post ->
      exists out,
        repair_lines (damaged pre t junk b b' post) = Ok out
        /\ out = pre ++ replacement (enter (current_function st) t) :: CLOSING :: post
        /\ count_braces out = count_braces pre + 1 + count_braces post)
  /\ (exists out_pre out_post,
        repair_lines pre = Ok out_pre
        /\ new_lines st = out_pre
        /\ out_post = scan SCANNING (enter (current_function st) t) post
        /\ repair_lines (damaged pre t junk b b' post) =
             Ok (out_pre
                 ++ replacement (enter (current_function st) t) :: CLOSING
                    :: out_post)
        /\ rewrites None pre out_pre
        /\ rewrites (enter (current_function st) t) post out_post
        /\ count_braces out_pre
           = count_braces (outside SCANNING pre) + closed_regions SCANNING pre
        /\ count_braces out_post
           = count_braces (outside SCANNING post) + closed_regions SCANNING post
        /\ count_braces
             (out_pre
              ++ replacement (enter (current_function st) t) :: CLOSING
                 :: out_post)
           = count_braces (outside SCANNING pre) + closed_regions SCANNING pre
             + 1
             + (count_braces (outside SCANNING post)
                + closed_regions SCANNING post)).
Proof.
  intros Hh Hi Ht Hno Hb Hb'.
  pose proof (@damaged_output pre t junk b b' post st Hh Hi Ht Hno Hb Hb') as Hout.
  split; [now apply damaged_turn|]. split; [|split; [|split]].
  - apply damaged_rest.
  - eexists. split; [exact Hout|]. intros Hpost. now apply scan_clean.
  - intros Hpre Hpost. eexists. split; [exact Hout|].
    rewrite (@scan_clean post _ Hpost).
    assert (E : st = {| i := length pre; current_function := fold_left enter pre None;
                        new_lines := pre |}).
    { apply (loop_head_unique Hh); [|exact Hi].
      apply (@loop_head_keep pre (t :: junk ++ b :: b' :: post) Hpre). }
    assert (Hnl : new_lines st = pre) by (rewrite E; reflexivity).
    rewrite Hnl. split; [reflexivity|].
    rewrite count_braces_app.
    change (replacement (enter (current_function st) t) :: CLOSING :: post)
      with ([replacement (enter (current_function st) t); CLOSING] ++ post).
    rewrite count_braces_app. unfold count_braces at 2. cbn [filter].
    rewrite lone_brace_replacement. change (lone_brace CLOSING) with true.
    simpl. lia.
  - pose proof (@loop_head_prefix pre (t :: junk ++ b :: b' :: post) st Hh Hi) as Hpre.
    assert (Epre : new_lines st = scan SCANNING None pre).
    { rewrite repair_lines_scan in Hpre. now inversion Hpre. }
    set (cf := enter (current_function st) t) in *.
    assert (Cpre : count_braces (new_lines st)
                   = count_braces (outside SCANNING pre) + closed_regions SCANNING pre).
    { rewrite Epre. apply (@scan_count (length pre)). lia. }
    assert (Cpost : count_braces (scan SCANNING cf post)
                    = count_braces (outside SCANNING post)
                      + closed_regions SCANNING post).
    { apply (@scan_count (length post)). lia. }
    exists (new_lines st), (scan SCANNING cf post).
    split; [exact Hpre|]. split; [reflexivity|]. split; [reflexivity|].
    split; [exact Hout|]. split; [|split; [|split; [|split]]].
    + rewrite Epre. apply (@scan_rewrites (length pre)). lia.
    + apply (@scan_rewrites (length post)). lia.
    + exact Cpre.
    + exact Cpost.
    + rewrite count_braces_app.
      change (replacement cf :: CLOSING :: scan SCANNING cf post)
        with ([replacement cf; CLOSING] ++ scan SCANNING cf post).
      assert (Ctwo : count_braces [replacement cf; CLOSING] = 1).
      { unfold count_braces. cbn [filter]. now rewrite lone_brace_replacement. }
      rewrite count_braces_app, Cpre, Cpost, Ctwo. lia.
Qed.

(** C2 at work on the scenario: the region starts on the fifth line. *)
Lemma brace_folding_witness :
  exists out,
    repair_lines scenario_input = Ok out
    /\ out = firstn 4 scenario_input
             ++ replacement (Some "getItem") :: CLOSING :: ["}"]
    /\ count_braces out = count_braces (firstn 4 scenario_input) + 1 + count_braces ["}"].
Proof.
  assert (Hh : loop_head scenario_input
                 {| i := 4; current_function := Some "getItem";
                    new_lines := firstn 4 scenario_input |}).
  { apply (@loop_head_keep (firstn 4 scenario_input) (skipn 4 scenario_input)).
    repeat constructor. }
  destruct (@brace_folding (firstn 4 scenario_input)
              "    handleControllerError(error, res, ',"
              ["    extraJunk"] "  }" "  }" ["}"] _ Hh
              eq_refl eq_refl eq_refl eq_refl eq_refl) as (_ & _ & _ & H & _).
  apply H; repeat constructor.
Defined.

(* ================================================================== *)
(** ** A region without its doubled brace *)

(** C3: when a broken call is read at the head of the loop and no doubled
    lone brace comes after it, the run completes without an error, the
    index ends one past the number of lines, and the output is the output
    written before, then the replacement line: no line after the broken
    call is written. *)
Theorem truncation pre t rest st :
  loop_head (pre ++ t :: rest) st ->
  i st = length pre ->
  malformed t = true ->
  no_pair rest ->
  run (length (pre ++ t :: rest)) (pre ++ t :: rest) init =
    Ok {| i := length (pre ++ t :: rest) + 1;
          current_function := enter (current_function st) t;
          new_lines := new_lines st ++ [replacement (enter (current_function st) t)] |}
  /\ repair_lines (pre ++ t :: rest) =
     Ok (new_lines st ++ [replacement (enter (current_function st) t)]).
Proof.
  intros Hh Hi Ht Hno.
  assert (Hturn : turn (pre ++ t :: rest) st
            {| i := length (pre ++ t :: rest) + 1;
               current_function := enter (current_function st) t;
               new_lines := new_lines st
                            ++ [replacement (enter (current_function st) t)] |}).
  { apply loop_body_turn. rewrite (@loop_body_app pre t rest st Hi).
    unfold advance. rewrite Ht, Hno, Hi. do 2 f_equal.
    rewrite length_app. simpl. lia. }
  assert (Hf : loop_head (pre ++ t :: rest)
            {| i := length (pre ++ t :: rest) + 1;
               current_function := enter (current_function st) t;
               new_lines := new_lines st
                            ++ [replacement (enter (current_function st) t)] |}).
  { eapply turns_trans; [exact Hh|]. now apply turns_one. }
  split.
  - apply (run_turns Hf); simpl; lia.
  - rewrite (repair_lines_final Hf); [reflexivity|simpl; lia].
Qed.

(** C3 on the scenario without its last three lines. *)
Lemma truncation_witness :
  repair_lines (firstn 6 scenario_input) =
  Ok (firstn 4 scenario_input ++ [replacement (Some "getItem")]).
Proof.
  assert (Hh : loop_head (firstn 6 scenario_input)
                 {| i := 4; current_function := Some "getItem";
                    new_lines := firstn 4 scenario_input |}).
  { apply (@loop_head_keep (firstn 4 scenario_input)
             ["    handleControllerError(error, res, ',"; "    extraJunk"]).
    repeat constructor. }
  exact (proj2 (@truncation (firstn 4 scenario_input)
                  "    handleControllerError(error, res, ',"
                  ["    extraJunk"] _ Hh eq_refl eq_refl eq_refl)).
Defined.

(* ================================================================== *)
(** ** Idempotence *)

Lemma repair_lines_clean lines :
  Forall (fun l => malformed l = false) lines -> repair_lines lines = Ok lines.
Proof.
  intros H. rewrite repair_lines_scan. f_equal. now apply scan_clean.
Qed.

(** C4: the pass applied to its own output gives that output back, on the
    lines and on the text, for no line of the output has the broken call. *)
Theorem idempotence :
  (forall lines, exists out,
      repair_lines lines = Ok out
      /\ Forall (fun l => malformed l = false) out
      /\ repair_lines out = Ok out)
  /\ (forall content, exists text,
      repair_content content = Ok text
      /\ repair_content text = Ok text).
Proof.
  split.
  - intros lines. exists (scan SCANNING None lines).
    pose proof (@scan_not_malformed SCANNING None lines wordy_None) as H.
    split; [apply repair_lines_scan|]. split; [exact H|].
    now apply repair_lines_clean.
  - intros content. unfold repair_content.
    set (out := scan SCANNING None (split_lines content)).
    exists (join_lines out). rewrite repair_lines_scan. cbn [bind]. fold out.
    split; [reflexivity|].
    assert (Hsplit : split_lines (join_lines out) = out).
    { apply split_join.
      - apply scan_nonempty, split_lines_nonempty.
      - apply scan_no_newline; [exact wordy_None|apply split_lines_no_newline]. }
    rewrite Hsplit, repair_lines_clean; [reflexivity|].
    apply scan_not_malformed, wordy_None.
Qed.

(* ================================================================== *)
(** ** Verbatim preservation *)

(** C5: the output is the input rewritten region by region: every line
    outside the regions that start at a broken call read by the scan is in
    the output as it is, at its place among the others, and each region
    gives way to its replacement line and, when it has one, to the closing
    line for its doubled brace.  A line read at the head of the loop and
    free of the broken call stands in the output at the place the output
    had reached when it was read, and these places grow with the index. *)
Theorem verbatim_preservation lines :
  exists out,
    repair_lines lines = Ok out
    /\ rewrites None lines out
    /\ (forall st,
          loop_head lines st -> i st < length lines ->
          malformed (line_at lines (i st)) = false ->
          nth_error out (length (new_lines st)) = Some (line_at lines (i st)))
    /\ (forall s1 s2,
          loop_head lines s1 -> loop_head lines s2 -> i s1 < i s2 ->
          length (new_lines s1) < length (new_lines s2)).
Proof.
  exists (scan SCANNING None lines).
  split; [apply repair_lines_scan|]. split; [|split].
  - apply (@scan_rewrites (length lines)). lia.
  - intros st Hh Hlt Hl.
    assert (Ht : turn lines st
              (advance st (line_at lines (i st)) (skipn (S (i st)) lines)))
      by (apply turn_advance; auto).
    destruct (@repair_lines_extends lines _
                (turns_trans Hh (turns_one Ht))) as [tail E].
    rewrite repair_lines_scan in E. inversion E as [E']. rewrite E'.
    unfold advance. rewrite Hl. cbn [new_lines].
    rewrite <- !app_assoc, nth_error_app2, Nat.sub_diag by lia. reflexivity.
  - intros s1 s2 H1 H2 Hlt.
    assert (H : turns lines s1 s2) by (apply (turns_linear H1 H2); lia).
    destruct H as [|st st' st'' Ht H]; [lia|].
    apply turn_advance in Ht as [_ ->].
    destruct (advance_extends st (line_at lines (i st)) (skipn (S (i st)) lines))
      as (added & Hne & E).
    destruct (turns_extends H) as [more E'].
    rewrite E', E, !length_app. destruct added; [congruence|simpl; lia].
Qed.

(** C5 on the first line of the scenario. *)
Lemma verbatim_preservation_witness :
  exists out,
    repair_lines scenario_input = Ok out
    /\ nth_error out 0 = Some "export async function getItem(req, res) {".
Proof.
  destruct (verbatim_preservation scenario_input) as (out & H & _ & Hk & _).
  exists out. split; [exact H|].
  apply (Hk init (turns_refl _ _)); [simpl; lia|reflexivity].
Defined.

(* ================================================================== *)
(** ** Context attribution *)

(** C6, as the specification has it, does not hold: in these five lines
    the broken call of the last line comes after the header of [Foo], no
    other header is between them, the scan reads it at the head of the
    loop, and its replacement line names [None]: the header was dropped
    with the first region, where headers are not looked at. *)
Lemma attribution_lost_in_region :
  line_at swallowed_header 1 = header_of "Foo" "req, res) {"
  /\ identifier "Foo" = true
  /\ forallb (fun l => negb (is_header l)) (skipn 2 swallowed_header) = true
  /\ malformed (line_at swallowed_header 4) = true
  /\ loop_head swallowed_header
       {| i := 4; current_function := None;
          new_lines := [replacement None; CLOSING] |}
  /\ loop_body swallowed_header
       {| i := 4; current_function := None;
          new_lines := [replacement None; CLOSING] |}
     = Ok {| i := 6; current_function := None;
             new_lines := [replacement None; CLOSING; replacement None] |}
  /\ repair_lines swallowed_header
     = Ok [replacement None; CLOSING; replacement None]
  /\ replacement None <> replacement (Some "Foo").
Proof.
  repeat split; try (vm_compute; reflexivity).
  - eapply turns_step; [|apply turns_refl].
    split; [simpl; lia|vm_compute; reflexivity].
  - vm_compute. intros H. discriminate H.
Qed.

Lemma line_at_inside pre (h : string) mid t rest k :
  length pre + 1 <= k < length pre + 1 + length mid ->
  In (line_at (pre ++ h :: mid ++ t :: rest) k) mid.
Proof.
  intros H.
  replace k with (length pre + 1 + (k - (length pre + 1))) by lia.
  rewrite line_at_shift. unfold line_at.
  rewrite app_nth1 by lia. apply nth_In. lia.
Qed.

(** C6, amended: when the header of [name] is read at the head of the
    loop, a broken call after it is read at the head of the loop too, and
    no line after the header up to the broken call is a header, the
    replacement line written for the broken call has the message
    [AiPermissionController.name]. *)
Theorem context_attribution pre name tail mid t rest sh st :
  loop_head (pre ++ header_of name tail :: mid ++ t :: rest) sh ->
  i sh = length pre ->
  loop_head (pre ++ header_of name tail :: mid ++ t :: rest) st ->
  i st = length pre + 1 + length mid ->
  identifier name = true ->
  Forall (fun l => is_header l = false) (mid ++ [t]) ->
  malformed t = true ->
  exists st' more,
    loop_body (pre ++ header_of name tail :: mid ++ t :: rest) st = Ok st'
    /\ new_lines st' = new_lines st ++ replacement (Some name) :: more
    /\ replacement (Some name)
       = ("    handleControllerError(error, res, 'AiPermissionController."
          ++ name ++ "');")%string.
Proof.
  intros Hsh Hih Hst Hit Hname Hnone Ht.
  set (lines := pre ++ header_of name tail :: mid ++ t :: rest) in *.
  apply Forall_app in Hnone as [Hmid Hth]. inversion Hth as [|? ? Hth' _]; subst.
  rewrite Forall_forall in Hmid.
  (* the turn at the header *)
  assert (Hturn : turn lines sh (advance sh (header_of name tail) (mid ++ t :: rest))).
  { apply loop_body_turn. now apply loop_body_app. }
  pose proof (turns_apart Hsh Hst Hturn ltac:(lia)) as Hrun.
  pose proof (turn_progress Hturn) as Hp.
  assert (Hcf : current_function st = Some name).
  { rewrite (turns_function Hrun).
    - rewrite advance_function. unfold enter.
      now rewrite (@func_match_header name tail Hname).
    - intros k Hk. apply Hmid. apply line_at_inside. lia. }
  (* the turn at the broken call *)
  assert (Hbody : loop_body lines st = Ok (advance st t rest)).
  { unfold lines.
    replace (pre ++ header_of name tail :: mid ++ t :: rest)
      with ((pre ++ header_of name tail :: mid) ++ t :: rest)
      by (now rewrite <- app_assoc).
    apply loop_body_app. rewrite length_app. simpl. lia. }
  assert (Henter : enter (current_function st) t = Some name).
  { rewrite Hcf. unfold enter, is_header in *. now destruct (func_match t). }
  exists (advance st t rest).
  unfold advance in *. rewrite Ht, Henter in *.
  destruct (find_pair rest); eexists; (split; [exact Hbody|split; reflexivity]).
Qed.

(** C6, amended, on the scenario. *)
Lemma context_attribution_witness :
  exists st' more,
    loop_body scenario_input
      {| i := 4; current_function := Some "getItem";
         new_lines := firstn 4 scenario_input |} = Ok st'
    /\ new_lines st' = firstn 4 scenario_input ++ replacement (Some "getItem") :: more
    /\ replacement (Some "getItem")
       = "    handleControllerError(error, res, 'AiPermissionController.getItem');".
Proof.
  assert (Hh : loop_head scenario_input
                 {| i := 4; current_function := Some "getItem";
                    new_lines := firstn 4 scenario_input |}).
  { apply (@loop_head_keep (firstn 4 scenario_input) (skipn 4 scenario_input)).
    repeat constructor. }
  apply (@context_attribution [] "getItem" "req, res) {"
           ["  try {"; "    doWork();"; "  } catch (error) {"]
           "    handleControllerError(error, res, ',"
           ["    extraJunk"; "  }"; "  }"; "}"] init _ (turns_refl _ _) eq_refl Hh eq_refl eq_refl).
  - repeat constructor.
  - reflexivity.
Defined.

(* ================================================================== *)
(** ** Every line in one turn *)

Lemma turn_covering lines k : forall n st,
  loop_head lines st -> length lines - i st <= n -> i st <= k < length lines ->
  exists s s', loop_head lines s /\ turn lines s s' /\ i s <= k < i s'.
Proof.
  induction n as [|n IH]; intros st Hh Hn Hk; [lia|].
  destruct (@turn_exists lines st ltac:(lia)) as [st' Ht].
  pose proof (turn_progress Ht) as Hp.
  destruct (Nat.lt_ge_cases k (i st')) as [Hlt|Hge].
  - exists st, st'. split; [exact Hh|]. split; [exact Ht|lia].
  - apply (IH st'); [|lia|lia].
    eapply turns_trans; [exact Hh|now apply turns_one].
Qed.

Lemma turn_covers_once lines k s1 s1' s2 s2' :
  loop_head lines s1 -> loop_head lines s2 ->
  turn lines s1 s1' -> turn lines s2 s2' ->
  i s1 <= k < i s1' -> i s2 <= k < i s2' ->
  s1 = s2 /\ s1' = s2'.
Proof.
  intros H1 H2 T1 T2 K1 K2.
  assert (E : s1 = s2).
  { apply (loop_head_unique H1 H2).
    destruct (Nat.lt_trichotomy (i s1) (i s2)) as [Hlt|[Heq|Hgt]]; [|exact Heq|].
    - pose proof (turns_monotone (turns_apart H1 H2 T1 Hlt)). lia.
    - pose proof (turns_monotone (turns_apart H2 H1 T2 Hgt)). lia. }
  subst s2. split; [reflexivity|]. exact (turn_deterministic T1 T2).
Qed.

(** C7: every line of the input belongs to the lines read by one turn of
    the loop, and to no other turn's: a turn at a line without the broken
    call reads that line alone and appends it as it is, a turn at a broken
    call reads the region and appends the replacement line, with the
    closing line when the region has its doubled brace, and nothing else;
    what a turn appended stays in the final output.  The ranges of lines of
    two different turns do not meet. *)
Theorem one_turn_per_line lines k :
  k < length lines ->
  (exists st st',
     loop_head lines st /\ loop_body lines st = Ok st' /\ i st <= k < i st'
     /\ (if malformed (line_at lines (i st))
         then exists cf,
                new_lines st' = new_lines st ++ [replacement cf]
                \/ new_lines st' = new_lines st ++ [replacement cf; CLOSING]
         else i st = k /\ i st' = k + 1
              /\ new_lines st' = new_lines st ++ [line_at lines k])
     /\ (exists tail, repair_lines lines = Ok (new_lines st' ++ tail))
     /\ (forall s s',
           loop_head lines s -> loop_body lines s = Ok s' -> i s <= k < i s' ->
           s = st /\ s' = st'))
  /\ (forall s1 s1' s2 s2',
        loop_head lines s1 -> loop_head lines s2 ->
        loop_body lines s1 = Ok s1' -> loop_body lines s2 = Ok s2' ->
        s1 <> s2 -> i s1' <= i s2 \/ i s2' <= i s1).
Proof.
  intros Hk. split.
  - destruct (@turn_covering lines k _ init (turns_refl _ _) (le_n _))
      as (st & st' & Hh & Ht & Hin); [simpl; lia|].
    exists st, st'. split; [exact Hh|]. split; [apply Ht|]. split; [exact Hin|].
    split; [|split].
    + pose proof (turn_progress Ht) as Hp.
      apply turn_advance in Ht as [Hlt E]. unfold advance in E.
      destruct (malformed (line_at lines (i st))).
      * exists (enter (current_function st) (line_at lines (i st))).
        destruct (find_pair (skipn (S (i st)) lines)); subst st'; simpl; auto.
      * subst st'. simpl in *. assert (i st = k) by lia. subst k.
        repeat split.
    + apply repair_lines_extends. eapply turns_trans; [exact Hh|now apply turns_one].
    + intros s s' Hs Hb Hr. apply loop_body_turn in Hb.
      destruct (turn_covers_once Hs Hh Hb Ht Hr Hin). auto.
  - intros s1 s1' s2 s2' H1 H2 B1 B2 Hne.
    apply loop_body_turn in B1, B2.
    destruct (Nat.lt_trichotomy (i s1) (i s2)) as [Hlt|[Heq|Hgt]].
    + left. exact (turns_monotone (turns_apart H1 H2 B1 Hlt)).
    + destruct Hne. exact (loop_head_unique H1 H2 Heq).
    + right. exact (turns_monotone (turns_apart H2 H1 B2 Hgt)).
Qed.

(** C7 on the sixth line of the scenario, which lies in the region. *)
Lemma one_turn_per_line_witness :
  exists st st',
    loop_head scenario_input st /\ loop_body scenario_input st = Ok st'
    /\ i st <= 5 < i st'.
Proof.
  destruct (@one_turn_per_line scenario_input 5 ltac:(simpl; lia))
    as [(st & st' & Hh & Hb & Hin & _) _].
  exists st, st'. auto.
Defined.

(* ================================================================== *)
(** ** A broken call before any header *)

(** C8: when the first broken call comes before every header, the scan
    reads it at the head of the loop with no name remembered, and the
    repair is performed: the lines before it are written as they are, then
    the replacement line with the message ['AiPermissionController.None'];
    the lines after the broken call are dropped up to the first doubled
    lone brace, for which one closing line is written, and the lines after
    it are gone through in their turn; with no doubled lone brace the
    output ends at the replacement line. *)
Theorem no_context_yet pre t rest :
  Forall (fun l => malformed l = false) pre ->
  Forall (fun l => is_header l = false) (pre ++ [t]) ->
  malformed t = true ->
  loop_head (pre ++ t :: rest)
    {| i := length pre; current_function := None; new_lines := pre |}
  /\ loop_body (pre ++ t :: rest)
       {| i := length pre; current_function := None; new_lines := pre |}
     = Ok (match find_pair rest with
           | Some k =>
               {| i := length pre + k + 3; current_function := None;
                  new_lines := pre ++ ["    handleControllerError(error, res, 'AiPermissionController.None');"; "  }"] |}
           | None =>
               {| i := length pre + length rest + 2; current_function := None;
                  new_lines := pre ++ ["    handleControllerError(error, res, 'AiPermissionController.None');"] |}
           end)
  /\ (exists tail,
        repair_lines (pre ++ t :: rest) = Ok (pre ++ "    handleControllerError(error, res, 'AiPermissionController.None');" :: tail)
        /\ tail = match find_pair rest with
                  | Some k => "  }" :: scan SCANNING None (skipn (k + 2) rest)
                  | None => []
                  end)
  /\ (forall junk b b' post,
        rest = junk ++ b :: b' :: post ->
        no_pair (junk ++ [b]) -> lone_brace b = true -> lone_brace b' = true ->
        exists out_post,
          repair_lines (pre ++ t :: rest) = Ok (pre ++ "    handleControllerError(error, res, 'AiPermissionController.None');" :: "  }" :: out_post)
          /\ rewrites None post out_post
          /\ (Forall (fun l => malformed l = false) post -> out_post = post))
  /\ (no_pair rest -> repair_lines (pre ++ t :: rest) = Ok (pre ++ ["    handleControllerError(error, res, 'AiPermissionController.None');"])).
Proof.
  intros Hpre Hnone Ht. apply Forall_app in Hnone as [Hnone Hth].
  inversion Hth as [|? ? Hth' _]; subst.
  assert (Hent : enter None t = None)
    by (unfold enter, is_header in *; now destruct (func_match t)).
  assert (Hout : repair_lines (pre ++ t :: rest) =
                 Ok (pre ++ "    handleControllerError(error, res, 'AiPermissionController.None');"
                     :: match find_pair rest with
                        | Some k => "  }" :: scan SCANNING None (skipn (k + 2) rest)
                        | None => []
                        end)).
  { rewrite repair_lines_scan, (@scan_keep pre None (t :: rest) Hpre).
    rewrite (@fold_enter_no_header pre None Hnone). cbn [scan].
    now rewrite Ht, Hent, scan_repairing. }
  assert (Hh : loop_head (pre ++ t :: rest)
                 {| i := length pre; current_function := None; new_lines := pre |}).
  { pose proof (@loop_head_keep pre (t :: rest) Hpre) as H.
    now rewrite (@fold_enter_no_header pre None Hnone) in H. }
  split; [exact Hh|]. split; [|split; [|split]].
  - rewrite (@loop_body_app pre t rest
               {| i := length pre; current_function := None; new_lines := pre |}
               eq_refl).
    unfold advance.
    cbn [i current_function new_lines]. rewrite Ht, Hent.
    destruct (find_pair rest); reflexivity.
  - eexists. split; [exact Hout|reflexivity].
  - intros junk b b' post -> Hno Hb Hb'.
    rewrite (@find_pair_first junk b b' post Hno Hb Hb'), skipn_pair in Hout.
    exists (scan SCANNING None post). split; [exact Hout|]. split.
    + apply (@scan_rewrites (length post)). lia.
    + intros Hpost. now apply scan_clean.
  - intros Hno. unfold no_pair in Hno. now rewrite Hno in Hout.
Qed.

(** C8 on the scenario without its header: six lines are written, the
    remnant of the call and one of the two braces are gone. *)
Lemma no_context_yet_witness :
  repair_lines (skipn 1 scenario_input) =
  Ok [ "  try {"; "    doWork();"; "  } catch (error) {";
       "    handleControllerError(error, res, 'AiPermissionController.None');";
       "  }"; "}" ].
Proof.
  destruct (@no_context_yet (firstn 3 (skipn 1 scenario_input))
              "    handleControllerError(error, res, ',"
              ["    extraJunk"; "  }"; "  }"; "}"])
    as (_ & _ & _ & H & _).
  - repeat constructor.
  - repeat constructor.
  - reflexivity.
  - destruct (H ["    extraJunk"] "  }" "  }" ["}"] eq_refl eq_refl eq_refl eq_refl)
      as (out_post & E & _ & Hclean).
    rewrite (Hclean ltac:(repeat constructor)) in E. exact E.
Defined.

(* ================================================================== *)
(** ** The lines the script writes *)

(** C9: a turn that finds the doubled brace appends two lines: the
    replacement line, which is four spaces and then the call, and the
    closing line, which is two spaces and a brace, whatever the doubled
    brace [b], [b'] has around its braces. *)
Theorem fixed_indentation pre t junk b b' post st st' :
  i st = length pre ->
  malformed t = true ->
  no_pair (junk ++ [b]) -> lone_brace b = true -> lone_brace b' = true ->
  loop_body (damaged pre t junk b b' post) st = Ok st' ->
  exists name,
    new_lines st' =
    new_lines st
    ++ [ ("    handleControllerError(error, res, 'AiPermissionController."
          ++ name ++ "');")%string;
         "  }" ]
    /\ isspace "h"%char = false.
Proof.
  intros Hi Ht Hno Hb Hb' Hbody.
  rewrite (@damaged_turn pre t junk b b' post st Hi Ht Hno Hb Hb') in Hbody.
  inversion Hbody; subst. simpl.
  exists (show_function (enter (current_function st) t)). split; reflexivity.
Qed.

(** C9 with a doubled brace made of a tab before the first brace and
    spaces after the second. *)
Lemma fixed_indentation_witness :
  exists name,
    new_lines
      {| i := 6; current_function := None;
         new_lines := [replacement None; "  }"] |} =
    [ ("    handleControllerError(error, res, 'AiPermissionController."
       ++ name ++ "');")%string;
      "  }" ]
    /\ isspace "h"%char = false.
Proof.
  apply (@fixed_indentation []
           "handleControllerError(error, res, ',"
           ["junk"; "}"; "more junk"] (String "009"%char "}") "}    " ["after"]
           init _ eq_refl eq_refl eq_refl eq_refl eq_refl).
  vm_compute. reflexivity.
Defined.

(* ================================================================== *)
(** ** Termination *)

(** C10: a turn of the outer loop, entered with the index in range,
    completes and leaves a larger index, also when its inner loop ran;
    with fuel for the number of lines or more the outer loop runs to its
    end, where the index is past the lines; and the pass yields an output,
    on the lines and on the text. *)
Theorem termination :
  (forall lines st,
      i st < length lines ->
      exists st', loop_body lines st = Ok st' /\ i st < i st')
  /\ (forall lines fuel,
      length lines <= fuel ->
      exists sf,
        run fuel lines init = Ok sf /\ length lines <= i sf
        /\ repair_lines lines = Ok (new_lines sf))
  /\ (forall content, exists text, repair_content content = Ok text).
Proof.
  split; [|split].
  - intros lines st H. destruct (turn_exists lines st H) as [st' Ht].
    exists st'. split; [apply Ht|exact (turn_progress Ht)].
  - intros lines fuel Hfuel.
    destruct (@turns_finish lines _ init (le_n _)) as (sf & Hsf & Hend).
    exists sf. split; [apply (run_turns Hsf Hend); simpl; lia|].
    split; [exact Hend|exact (repair_lines_final Hsf Hend)].
  - intros content. unfold repair_content. rewrite repair_lines_scan.
    eexists. reflexivity.
Qed.

(** C10 on the scenario: the turn at the broken call goes from the fifth
    line to the ninth. *)
Lemma termination_witness :
  exists st',
    loop_body scenario_input
      {| i := 4; current_function := Some "getItem";
         new_lines := firstn 4 scenario_input |} = Ok st'
    /\ 4 < i st'.
Proof.
  apply (proj1 termination scenario_input
           {| i := 4; current_function := Some "getItem";
              new_lines := firstn 4 scenario_input |}).
  simpl. lia.
Defined.

(* ================================================================== *)
(** ** Splitting and joining *)

Lemma join_lines_cons l l' ls :
  join_lines (l :: l' :: ls) = (l ++ String newline (join_lines (l' :: ls)))%string.
Proof. reflexivity. Qed.

Lemma join_split content : join_lines (split_lines content) = content.
Proof.
  induction content as [|c s IH]; [reflexivity|].
  simpl. destruct (Ascii.eqb_spec c newline) as [->|Hc].
  - destruct (split_lines s) as [|x xs] eqn:E; [now destruct (split_lines_nonempty s)|].
    rewrite join_lines_cons. simpl. now rewrite IH.
  - destruct (split_lines s) as [|x [|x' xs]] eqn:E.
    + now destruct (split_lines_nonempty s).
    + unfold join_lines in *. simpl in *. now rewrite IH.
    + rewrite join_lines_cons in *. simpl. now rewrite IH.
Qed.

(** X1: the two ends of the pass undo each other.  Joining the lines of a
    text gives the text back; the lines of a text are never none and hold
    no newline; and splitting the join of such lines gives the lines
    back. *)
Theorem split_join_roundtrip :
  (forall content,
      join_lines (split_lines content) = content
      /\ split_lines content <> []
      /\ Forall (fun l => no_newline l = true) (split_lines content))
  /\ (forall ls,
        ls <> [] -> Forall (fun l => no_newline l = true) ls ->
        split_lines (join_lines ls) = ls).
Proof.
  split.
  - intros content. split; [apply join_split|].
    split; [apply split_lines_nonempty|apply split_lines_no_newline].
  - intros ls Hne H. now apply split_join.
Qed.

(** X1 on a last line that is empty. *)
Lemma split_join_roundtrip_witness :
  split_lines (join_lines ["}"; ""]) = ["}"; ""].
Proof.
  apply (proj2 split_join_roundtrip ["}"; ""]).
  - discriminate.
  - repeat constructor.
Defined.

(* ================================================================== *)
(** ** The test for the broken call *)

Lemma prefix_append needle : forall hay,
  prefix needle hay = true <-> exists b, hay = (needle ++ b)%string.
Proof.
  induction needle as [|a needle IH]; intros hay.
  - split; [intros _; now exists hay|intros _; now destruct hay].
  - destruct hay as [|c hay]; simpl.
    + split; [discriminate|intros [b H]; discriminate].
    + destruct (ascii_dec a c) as [->|Hne].
      * rewrite IH. split; intros [b H]; exists b; congruence.
      * split; [discriminate|intros [b H]; congruence].
Qed.

Lemma str_in_append needle hay :
  str_in needle hay = true <-> exists a b, hay = (a ++ needle ++ b)%string.
Proof.
  split.
  - induction hay as [|c hay IH]; cbn [str_in]; intros H;
      apply orb_true_iff in H as [H|H].
    + apply prefix_append in H as [b H]. now exists "", b.
    + discriminate.
    + apply prefix_append in H as [b H]. now exists "", b.
    + destruct (IH H) as (a & b & E). exists (String c a), b. simpl. now rewrite E.
  - intros (a & b & E). subst hay. induction a as [|c a IH].
    + simpl. assert (H : prefix needle (needle ++ b) = true)
        by (apply prefix_append; now exists b).
      destruct (needle ++ b)%string; cbn [str_in]; now rewrite H.
    + simpl. cbn [str_in]. rewrite IH. apply orb_true_r.
Qed.

(** X2: a line is taken for a broken call exactly when the fragment
    stands somewhere in it, whatever is before and after. *)
Theorem malformed_anywhere l :
  malformed l = true <-> exists a b, l = (a ++ MALFORMED ++ b)%string.
Proof. apply str_in_append. Qed.

(** X2 on a comment that quotes the fragment. *)
Lemma malformed_anywhere_witness :
  malformed "// was: handleControllerError(error, res, ', oops" = true.
Proof.
  apply (proj2 (malformed_anywhere _)).
  now exists "// was: ", " oops".
Defined.

Lemma prefix_before_newline needle : forall l rest,
  no_newline needle = true ->
  prefix needle (l ++ String newline rest) = prefix needle l.
Proof.
  induction needle as [|a needle IH]; intros l rest H.
  - now destruct l.
  - simpl in H. apply andb_true_iff in H as [Ha Hn]. apply negb_true_iff in Ha.
    destruct l as [|c l]; simpl.
    + destruct (ascii_dec a newline) as [->|]; [|reflexivity].
      now rewrite Ascii.eqb_refl in Ha.
    + destruct (ascii_dec a c); [now apply IH|reflexivity].
Qed.

Lemma str_in_across_newline needle l rest :
  no_newline needle = true ->
  str_in needle (l ++ String newline rest) = str_in needle l || str_in needle rest.
Proof.
  intros H. induction l as [|c l IH].
  - pose proof (@prefix_before_newline needle "" rest H) as P.
    change ("" ++ String newline rest)%string with (String newline rest) in *.
    cbn [str_in]. rewrite P. now rewrite orb_false_r.
  - pose proof (@prefix_before_newline needle (String c l) rest H) as P.
    change (String c l ++ String newline rest)%string
      with (String c (l ++ String newline rest)) in *.
    cbn [str_in]. rewrite IH, P. now rewrite orb_assoc.
Qed.

Lemma str_in_join needle ls :
  no_newline needle = true -> ls <> [] ->
  str_in needle (join_lines ls) = existsb (str_in needle) ls.
Proof.
  intros H. induction ls as [|l ls IH]; intros Hne; [congruence|].
  destruct ls as [|l' ls].
  - simpl. now rewrite orb_false_r.
  - rewrite join_lines_cons, (@str_in_across_newline needle _ _ H), IH by discriminate.
    reflexivity.
Qed.

Lemma existsb_clean ls :
  Forall (fun l => malformed l = false) ls <-> existsb (str_in MALFORMED) ls = false.
Proof.
  induction ls as [|l ls IH]; simpl.
  - split; auto.
  - rewrite orb_false_iff, <- IH. split.
    + intros H. inversion H; subst. auto.
    + intros [H1 H2]. now constructor.
Qed.

Lemma repair_content_free content text :
  repair_content content = Ok text -> str_in MALFORMED text = false.
Proof.
  unfold repair_content. rewrite repair_lines_scan. cbn [bind]. intros E.
  inversion E; subst.
  rewrite str_in_join; [|reflexivity|apply scan_nonempty, split_lines_nonempty].
  apply existsb_clean, scan_not_malformed, wordy_None.
Qed.

Lemma repair_content_clean content :
  str_in MALFORMED content = false -> repair_content content = Ok content.
Proof.
  intros H. rewrite <- (join_split content) in H.
  rewrite str_in_join in H; [|reflexivity|apply split_lines_nonempty].
  apply existsb_clean in H.
  unfold repair_content. rewrite (repair_lines_clean H). cbn [bind].
  now rewrite join_split.
Qed.

(** X3: the text the pass returns holds the fragment of the broken call
    nowhere, not within a line and not across two. *)
Theorem output_free_of_broken_call content text :
  repair_content content = Ok text -> str_in MALFORMED text = false.
Proof. apply repair_content_free. Qed.

(** X3 on the scenario. *)
Lemma output_free_of_broken_call_witness :
  str_in MALFORMED (join_lines scenario_output) = false.
Proof.
  apply (@output_free_of_broken_call (join_lines scenario_input)).
  vm_compute. reflexivity.
Defined.

(** X4: the pass returns a text as it got it exactly when the fragment of
    the broken call stands nowhere in the text. *)
Theorem unchanged_iff_no_broken_call content :
  repair_content content = Ok content <-> str_in MALFORMED content = false.
Proof.
  split; [apply repair_content_free|apply repair_content_clean].
Qed.

(** X4 on the repaired scenario. *)
Lemma unchanged_iff_no_broken_call_witness :
  repair_content (join_lines scenario_output) = Ok (join_lines scenario_output).
Proof.
  apply (proj2 (unchanged_iff_no_broken_call (join_lines scenario_output))).
  vm_compute. reflexivity.
Defined.

(* ================================================================== *)
(** ** The size of the output *)

Lemma count_braces_cons l ls :
  count_braces (l :: ls) = (if lone_brace l then 1 else 0) + count_braces ls.
Proof. unfold count_braces. simpl. now destruct (lone_brace l). Qed.

Lemma scan_size : forall n ls cf,
  length ls <= n ->
  length (scan SCANNING cf ls) <= length ls
  /\ count_braces (scan SCANNING cf ls) <= count_braces ls.
Proof.
  induction n as [|n IH]; intros ls cf Hn.
  - destruct ls; [split; reflexivity|simpl in Hn; lia].
  - destruct ls as [|l rest]; [split; reflexivity|]. cbn [length] in Hn.
    cbn [scan]. destruct (malformed l).
    + rewrite scan_repairing. destruct (find_pair rest) as [k|] eqn:Hf.
      * destruct (find_pair_split rest Hf)
          as (junk & b & b' & post & -> & <- & Hb & Hb' & _).
        rewrite skipn_pair.
        rewrite length_app in Hn. cbn [length] in Hn.
        destruct (IH post (enter cf l) ltac:(lia)) as [H1 H2].
        rewrite !count_braces_cons, count_braces_app, !count_braces_cons.
        rewrite lone_brace_replacement, Hb, Hb'. change (lone_brace CLOSING) with true.
        cbn [length]. rewrite length_app. cbn [length]. lia.
      * rewrite !count_braces_cons, lone_brace_replacement.
        unfold count_braces at 1. cbn [length filter]. lia.
    + destruct (IH rest (enter cf l) ltac:(lia)) as [H1 H2].
      rewrite !count_braces_cons. cbn [length]. lia.
Qed.

(** X5: the pass writes no more lines than it read, writes a line or more
    when it read one, and writes no more lone closing braces than it
    read. *)
Theorem output_not_larger lines :
  exists out,
    repair_lines lines = Ok out
    /\ length out <= length lines
    /\ (length out =? 0) = (length lines =? 0)
    /\ count_braces out <= count_braces lines.
Proof.
  exists (scan SCANNING None lines). split; [apply repair_lines_scan|].
  destruct (@scan_size (length lines) lines None (le_n _)) as (H1 & H2).
  split; [exact H1|]. split; [|exact H2].
  destruct lines as [|l rest]; [reflexivity|].
  cbn [scan]. destruct (malformed l); reflexivity.
Qed.

(* ================================================================== *)
(** ** Where the remembered name comes from *)

Lemma loop_head_invariant lines (P : state -> Prop) :
  P init ->
  (forall s s', loop_head lines s -> P s -> turn lines s s' -> P s') ->
  forall st, loop_head lines st -> P st.
Proof.
  intros H0 Hstep st Hst.
  assert (G : forall a b, turns lines a b -> loop_head lines a -> P a -> P b).
  { induction 1 as [|a a' b Ht _ IH]; intros Ha Pa; [exact Pa|].
    apply IH; [eapply turns_trans; [exact Ha|now apply turns_one]|].
    now apply (Hstep a a'). }
  exact (G init st Hst (turns_refl _ _) H0).
Qed.

Lemma func_match_identifier line name :
  func_match line = Some name -> identifier name = true.
Proof.
  intros H. pose proof (func_match_word _ H) as Hw.
  unfold func_match in H. destruct (after_prefix _ line) as [rest|]; [|discriminate].
  destruct (span_word rest) as [[|c w] [|[[] [] [] [] [] [] [] []] r]]; try discriminate.
  inversion H; subst. exact Hw.
Qed.

(** X6: at the head of the loop the remembered name is either none, and
    then no line read so far at the head of the loop was a header, or an
    identifier that the header rule took from a line read earlier at the
    head of the loop. *)
Theorem context_provenance lines st :
  loop_head lines st ->
  match current_function st with
  | Some name =>
      identifier name = true
      /\ exists sh,
           loop_head lines sh /\ i sh < i st
           /\ func_match (line_at lines (i sh)) = Some name
  | None =>
      forall sh, loop_head lines sh -> i sh < i st ->
                 func_match (line_at lines (i sh)) = None
  end.
Proof.
  revert st.
  apply (@loop_head_invariant lines (fun st =>
    match current_function st with
    | Some name =>
        identifier name = true
        /\ exists sh,
             loop_head lines sh /\ i sh < i st
             /\ func_match (line_at lines (i sh)) = Some name
    | None =>
        forall sh, loop_head lines sh -> i sh < i st ->
                   func_match (line_at lines (i sh)) = None
    end)).
  - simpl. intros sh _ H. lia.
  - intros s s' Hs IH Ht.
    pose proof (turn_progress Ht) as Hp.
    pose proof Ht as Ht'. apply turn_advance in Ht' as [_ E].
    assert (Hcf : current_function s' = enter (current_function s) (line_at lines (i s)))
      by (rewrite E; apply advance_function).
    rewrite Hcf. unfold enter.
    destruct (func_match (line_at lines (i s))) as [name|] eqn:Hm.
    + split; [eapply func_match_identifier; eauto|].
      exists s. auto.
    + destruct (current_function s) as [name|].
      * destruct IH as (Hid & sh & Hsh & Hlt & Hf).
        split; [exact Hid|]. exists sh. repeat split; auto. lia.
      * intros sh Hsh Hlt.
        destruct (Nat.lt_trichotomy (i sh) (i s)) as [Hl|[He|Hg]].
        -- now apply IH.
        -- now rewrite (loop_head_unique Hsh Hs He).
        -- pose proof (turns_monotone (turns_apart Hs Hsh Ht Hg)). lia.
Qed.

(** X6 at the broken call of the scenario. *)
Lemma context_provenance_witness :
  identifier "getItem" = true
  /\ exists sh,
       loop_head scenario_input sh /\ i sh < 4
       /\ func_match (line_at scenario_input (i sh)) = Some "getItem".
Proof.
  apply (@context_provenance scenario_input
           {| i := 4; current_function := Some "getItem";
              new_lines := firstn 4 scenario_input |}).
  apply (@loop_head_keep (firstn 4 scenario_input) (skipn 4 scenario_input)).
  repeat constructor.
Defined.

(* ================================================================== *)
(** ** The header rule *)

Lemma after_prefix_append p : forall s r,
  after_prefix p s = Some r -> s = (p ++ r)%string.
Proof.
  induction p as [|a p IH]; intros s r H; simpl in *.
  - congruence.
  - destruct s as [|b s]; [discriminate|].
    destruct (Ascii.eqb_spec a b) as [->|]; [|discriminate].
    simpl. f_equal. now apply IH.
Qed.

Lemma span_word_append s :
  s = (fst (span_word s) ++ snd (span_word s))%string.
Proof.
  induction s as [|c s IH]; [reflexivity|].
  simpl. destruct (isword c); [|reflexivity].
  destruct (span_word s) as [w r]. simpl in *. now rewrite <- IH.
Qed.

(** X7: the header rule takes a name from a line exactly when the line is
    the words [export async function], an identifier, an opening
    parenthesis and anything more; the name it takes is that identifier. *)
Theorem func_match_exactly_headers line name :
  func_match line = Some name <->
  identifier name = true /\ exists tail, line = header_of name tail.
Proof.
  split.
  - intros H. split; [eapply func_match_identifier; eauto|].
    unfold func_match in H.
    destruct (after_prefix _ line) as [rest|] eqn:Hp; [|discriminate].
    apply after_prefix_append in Hp.
    pose proof (span_word_append rest) as Hs.
    destruct (span_word rest) as [[|c w] [|[[] [] [] [] [] [] [] []] r]]; try discriminate.
    inversion H; subst name. exists r. unfold header_of.
    simpl in Hs. now rewrite Hp, Hs.
  - intros [Hid [tail ->]]. now apply func_match_header.
Qed.

(** X7 on a header without parameters. *)
Lemma func_match_exactly_headers_witness :
  func_match "export async function listAll() {" = Some "listAll".
Proof.
  apply (proj2 (func_match_exactly_headers _ "listAll")).
  split; [reflexivity|now exists ") {"].
Defined.

(* ================================================================== *)
(** ** The test for a lone closing brace *)

Lemma lstrip_append s :
  exists ws, all_space ws = true /\ s = (ws ++ lstrip s)%string.
Proof.
  induction s as [|c s (ws & Hws & E)]; [now exists ""|].
  simpl. destruct (isspace c) eqn:Hc.
  - exists (String c ws). simpl. rewrite Hc, Hws. split; [reflexivity|congruence].
  - now exists "".
Qed.

Lemma rstrip_append s :
  exists ws, all_space ws = true /\ s = (rstrip s ++ ws)%string.
Proof.
  induction s as [|c s (ws & Hws & E)]; [now exists ""|].
  simpl. destruct (rstrip s) as [|a r].
  - simpl in E. subst s. destruct (isspace c) eqn:Hc.
    + exists (String c ws). simpl. now rewrite Hc, Hws.
    + now exists ws.
  - exists ws. split; [exact Hws|]. simpl in *. congruence.
Qed.

Lemma lstrip_padded ws rest :
  all_space ws = true -> lstrip (ws ++ String "}" rest) = String "}" rest.
Proof.
  induction ws as [|c ws IH]; intros H; [reflexivity|].
  simpl in *. apply andb_true_iff in H as [Hc Hws]. rewrite Hc. now apply IH.
Qed.

Lemma rstrip_space ws : all_space ws = true -> rstrip ws = "".
Proof.
  induction ws as [|c ws IH]; intros H; [reflexivity|].
  simpl in *. apply andb_true_iff in H as [Hc Hws]. now rewrite (IH Hws), Hc.
Qed.

(** X8: a line counts as a lone closing brace exactly when it is one
    brace with nothing but white space before and after it. *)
Theorem lone_brace_exactly_padded l :
  lone_brace l = true <->
  exists ws ws',
    all_space ws = true /\ all_space ws' = true
    /\ l = (ws ++ "}" ++ ws')%string.
Proof.
  unfold lone_brace, strip. rewrite String.eqb_eq. split.
  - intros H.
    destruct (lstrip_append l) as (ws & Hws & El).
    destruct (rstrip_append (lstrip l)) as (ws' & Hws' & Er).
    exists ws, ws'. repeat split; auto.
    rewrite H in Er. now rewrite El at 1; rewrite Er.
  - intros (ws & ws' & Hws & Hws' & ->).
    change ("}" ++ ws')%string with (String "}" ws').
    rewrite (@lstrip_padded ws ws' Hws). simpl. now rewrite (@rstrip_space ws' Hws').
Qed.

(** X8 on a brace between a tab and two spaces. *)
Lemma lone_brace_exactly_padded_witness :
  lone_brace (String "009"%char "}  ") = true.
Proof.
  apply (proj2 (lone_brace_exactly_padded _)).
  exists (String "009"%char ""), "  ". repeat split.
Defined.

(* ================================================================== *)
(** ** The look-ahead of the inner loop *)

Lemma double_brace_at_in_range lines k :
  k < length lines -> double_brace_at lines k = Ok (pair_head (skipn k lines)).
Proof.
  intros H. destruct (split_at lines H) as [Hl Hn].
  rewrite (skipn_line_at lines H). rewrite Hl at 1.
  pose proof (double_brace_at_app (firstn k lines) (line_at lines k)
                (skipn (S k) lines)) as E.
  now rewrite Hn in E.
Qed.

(** X9: the test for the doubled brace reads no line past the end: at an
    index in range it gives an answer, and at the last line the answer is
    no, whatever the line; and the inner loop raises no [IndexError], from
    any index and with any fuel. *)
Theorem lookahead_in_bounds lines k :
  (k < length lines ->
   exists found,
     double_brace_at lines k = Ok found
     /\ (k + 1 = length lines -> found = false))
  /\ (forall fuel out, skip_malformed fuel lines k out <> IndexError).
Proof.
  split.
  - intros H. exists (pair_head (skipn k lines)).
    split; [now apply double_brace_at_in_range|].
    intros Hlast. rewrite (skipn_line_at lines H).
    now rewrite skipn_all2 by lia.
  - intros fuel. revert k. induction fuel as [|fuel IH]; intros k out;
      rewrite skip_malformed_eq;
      destruct (Nat.ltb_spec k (length lines)) as [Hlt|Hge]; try discriminate.
    rewrite (double_brace_at_in_range lines Hlt). cbn [bind].
    destruct (pair_head (skipn k lines)); [discriminate|apply IH].
Qed.

(** X9 on the last line of the scenario, a brace. *)
Lemma lookahead_in_bounds_witness :
  exists found,
    double_brace_at scenario_input 8 = Ok found
    /\ (8 + 1 = length scenario_input -> found = false).
Proof.
  apply (proj1 (lookahead_in_bounds scenario_input 8)).
  simpl. lia.
Defined.

(* ================================================================== *)
(** ** Lines added after the last region *)

Lemma find_pair_app rest more k :
  find_pair rest = Some k -> find_pair (rest ++ more) = Some k.
Proof.
  intros H.
  destruct (find_pair_split rest H) as (junk & b & b' & post & -> & <- & Hb & Hb' & Hno).
  rewrite <- app_assoc. simpl. now apply find_pair_first.
Qed.

Lemma turn_lift a more s s' :
  turn a s s' -> i s' <= length a -> turn (a ++ more) s s'.
Proof.
  intros Ht Hle. apply turn_advance in Ht as [Hlt E].
  apply turn_advance. split; [rewrite length_app; lia|].
  unfold line_at in *. rewrite app_nth1 by exact Hlt.
  rewrite skipn_app. replace (S (i s) - length a) with 0 by lia.
  change (skipn 0 more) with more. subst s'. unfold advance in *.
  destruct (malformed (nth (i s) a "")); [|reflexivity].
  destruct (find_pair (skipn (S (i s)) a)) as [k|] eqn:Hf.
  - now rewrite (@find_pair_app _ more k Hf).
  - cbn [i] in Hle. rewrite length_skipn in Hle. lia.
Qed.

Lemma turns_lift a more s sf :
  turns a s sf -> i sf <= length a -> turns (a ++ more) s sf.
Proof.
  induction 1 as [|s s' sf Ht H IH]; intros Hle; [apply turns_refl|].
  pose proof (turns_monotone H).
  eapply turns_step; [apply turn_lift; [exact Ht|lia]|now apply IH].
Qed.

(** X10: when the run on some lines ends with the index on their number,
    which is when no region is left without its doubled brace, lines
    without the broken call added after them come out after the output,
    as they are. *)
Theorem append_clean_lines a more sf :
  run (length a) a init = Ok sf ->
  i sf = length a ->
  Forall (fun l => malformed l = false) more ->
  repair_lines a = Ok (new_lines sf)
  /\ repair_lines (a ++ more) = Ok (new_lines sf ++ more).
Proof.
  intros Hrun Hi Hmore.
  destruct (@turns_finish a _ init (le_n _)) as (sf' & Hsf & Hend).
  rewrite (run_turns Hsf Hend) in Hrun by (simpl; lia).
  inversion Hrun; subst sf'.
  split; [now apply repair_lines_final|].
  assert (Hh : loop_head (a ++ more) sf) by (apply turns_lift; [exact Hsf|lia]).
  rewrite (repair_lines_from Hh), Hi, skipn_app_length.
  now rewrite (@scan_clean more _ Hmore).
Qed.

(** X10 on the scenario and a closing comment. *)
Lemma append_clean_lines_witness :
  repair_lines scenario_input = Ok scenario_output
  /\ repair_lines (scenario_input ++ ["// end of file"])
     = Ok (scenario_output ++ ["// end of file"]).
Proof.
  apply (@append_clean_lines scenario_input ["// end of file"]
           {| i := 9; current_function := Some "getItem";
              new_lines := scenario_output |}).
  - vm_compute. reflexivity.
  - reflexivity.
  - repeat constructor.
Defined.

(* ================================================================== *)
(** ** A header with the broken call on its line *)

(** X11: the header rule comes before the test for the broken call: a
    line that is a header and has the broken call too, read at the head of
    the loop, gets a replacement line with its own name, whatever name was
    remembered before. *)
Theorem header_with_broken_call pre name tail rest st :
  i st = length pre ->
  identifier name = true ->
  malformed (header_of name tail) = true ->
  exists st' more,
    loop_body (pre ++ header_of name tail :: rest) st = Ok st'
    /\ current_function st' = Some name
    /\ new_lines st' = new_lines st ++ replacement (Some name) :: more.
Proof.
  intros Hi Hname Hm.
  rewrite (@loop_body_app pre (header_of name tail) rest st Hi).
  unfold advance, enter. rewrite Hm, (@func_match_header name tail Hname).
  destruct (find_pair rest); do 2 eexists; repeat split.
Qed.

(** X11 on a function written on one line. *)
Lemma header_with_broken_call_witness :
  exists st' more,
    loop_body
      ["export async function ping(req, res) { handleControllerError(error, res, ',"]
      init = Ok st'
    /\ current_function st' = Some "ping"
    /\ new_lines st' = replacement (Some "ping") :: more.
Proof.
  apply (@header_with_broken_call [] "ping"
           "req, res) { handleControllerError(error, res, ',"
           [] init eq_refl eq_refl eq_refl).
Defined.

(* ================================================================== *)
(** ** The script as the state machine *)

(** X12: the loops of the script, with their index, compute the machine
    with the two states SCANNING and REPAIRING that goes through the
    lines one by one; and from a state at the head of the outer loop the
    output is what was written so far, then the machine's output on the
    lines from the index on. *)
Theorem script_is_state_machine lines :
  repair_lines lines = Ok (scan SCANNING None lines)
  /\ (forall st,
        loop_head lines st ->
        repair_lines lines =
        Ok (new_lines st
            ++ scan SCANNING (current_function st) (skipn (i st) lines))).
Proof.
  split; [apply repair_lines_scan|]. intros st H. now apply repair_lines_from.
Qed.

(** X12 at the broken call of the scenario. *)
Lemma script_is_state_machine_witness :
  repair_lines scenario_input =
  Ok (firstn 4 scenario_input
      ++ scan SCANNING (Some "getItem") (skipn 4 scenario_input)).
Proof.
  apply (proj2 (script_is_state_machine scenario_input)
           {| i := 4; current_function := Some "getItem";
              new_lines := firstn 4 scenario_input |}).
  apply (@loop_head_keep (firstn 4 scenario_input) (skipn 4 scenario_input)).
  repeat constructor.
Defined.
